(** * SqliteDatabase: the key/value-to-SQL façade

    A shallow embedding of the [SqliteDatabase] class (quoting helpers,
    [flattenObj], the statement builders and the executed CRUD operations)
    together with the properties stated about it.

    Conventions of the embedding:
    - a JavaScript string is the list of its UTF-16 code units ([jsstring]);
    - a JavaScript object is the list of its own enumerable properties in
      enumeration order ([object]): array indices first, in ascending
      order, then the other keys in creation order; property assignment is
      [set_prop]. Objects are plain (nothing enumerable is inherited) and
      no key is [__proto__], whose assignment is an accessor call; where a
      statement depends on no leaf being flattened to that name, it says
      so ([proto_free]);
    - numbers are only passed through by the code, so integers stand for
      them, with [NaN] beside them;
    - the column arrays of a Schema Descriptor, which [initTables] writes
      to, live in a store of arrays and are held by reference;
    - the [better-sqlite3] connection is an interface ([Driver]); the
      methods that talk to it live in a state-and-exception monad [M]. A
      small store with one table ([OneColumnStore]) instantiates it to run
      the methods on concrete inputs. *)

From Stdlib Require Import List String Ascii NArith ZArith Bool Lia.
From Stdlib Require DecimalN Finite.
Import ListNotations.

Set Implicit Arguments.

(* ================================================================= *)
(** ** JavaScript strings *)

(** A string is a sequence of 16-bit code units. *)
Definition jsstring := list N.

(** Well-formed code units are below [2^16]. *)
Definition code_units (s : jsstring) : Prop := Forall (fun c => (c < 65536)%N) s.

(** String literals of the source, as code units. *)
Definition str (s : string) : jsstring := map N_of_ascii (list_ascii_of_string s).

Fixpoint jseqb (a b : jsstring) : bool :=
  match a, b with
  | [], [] => true
  | x :: a', y :: b' => N.eqb x y && jseqb a' b'
  | _, _ => false
  end.

(** [Array.prototype.join] on an array of strings. *)
Fixpoint join (sep : jsstring) (l : list jsstring) : jsstring :=
  match l with
  | [] => []
  | [x] => x
  | x :: l' => x ++ sep ++ join sep l'
  end.

(* ----------------------------------------------------------------- *)
(** *** The global functions [escape] and [unescape] (ECMAScript B.2.1) *)

Module Escape.
Local Open Scope N_scope.

(** The characters [escape] leaves alone. *)
Definition unescaped_set : jsstring :=
  str "ABCDEFGHIJKLMNOPQRSTUVWXYZabcdefghijklmnopqrstuvwxyz0123456789@*_+-./".

Definition unescaped (c : N) : bool := existsb (N.eqb c) unescaped_set.

(** Upper-case hexadecimal digit of a value below 16. *)
Definition hexdigit (d : N) : N := if d <? 10 then 48 + d else 55 + d.

(** Value of a hexadecimal digit, either case. *)
Definition hexval (c : N) : option N :=
  if (48 <=? c) && (c <=? 57) then Some (c - 48)
  else if (65 <=? c) && (c <=? 70) then Some (c - 55)
  else if (97 <=? c) && (c <=? 102) then Some (c - 87)
  else None.

Definition percent : N := 37.
Definition letter_u : N := 117.

Definition escape_unit (c : N) : jsstring :=
  if unescaped c then [c]
  else if c <? 256 then [percent; hexdigit (c / 16); hexdigit (c mod 16)]
  else [percent; letter_u;
        hexdigit (c / 16 / 16 / 16 mod 16); hexdigit (c / 16 / 16 mod 16);
        hexdigit (c / 16 mod 16); hexdigit (c mod 16)].

Definition escape (s : jsstring) : jsstring := flat_map escape_unit s.

(** The four hexadecimal digits after [%u], if they are there. *)
Definition hex4 (rest : jsstring) : option N :=
  match rest with
  | u :: a :: b :: c :: d :: _ =>
      if u =? letter_u then
        match hexval a, hexval b, hexval c, hexval d with
        | Some x, Some y, Some z, Some w => Some (((x * 16 + y) * 16 + z) * 16 + w)
        | _, _, _, _ => None
        end
      else None
  | _ => None
  end.

(** The two hexadecimal digits after [%], if they are there. *)
Definition hex2 (rest : jsstring) : option N :=
  match rest with
  | a :: b :: _ =>
      match hexval a, hexval b with
      | Some x, Some y => Some (x * 16 + y)
      | _, _ => None
      end
  | _ => None
  end.

(** What a [%] followed by [rest] decodes to, with the number of code
    units of [rest] it consumes. *)
Definition decode_at (rest : jsstring) : option (N * nat) :=
  match hex4 rest with
  | Some n => Some (n, 5%nat)
  | None =>
      match hex2 rest with
      | Some n => Some (n, 2%nat)
      | None => None
      end
  end.

(** The scan of [unescape]: [skip] counts the code units still to be
    dropped because an escape sequence that covers them was decoded. *)
Fixpoint unescape_from (skip : nat) (s : jsstring) : jsstring :=
  match s with
  | [] => []
  | c :: rest =>
      match skip with
      | S k => unescape_from k rest
      | O =>
          if c =? percent then
            match decode_at rest with
            | Some (d, n) => d :: unescape_from n rest
            | None => c :: unescape_from 0 rest
            end
          else c :: unescape_from 0 rest
      end
  end.

Definition unescape (s : jsstring) : jsstring := unescape_from 0 s.

End Escape.
Export Escape.

(* ================================================================= *)
(** ** Values and objects *)

(** The values rows and filters are made of. The code only passes numbers
    through, so an integer stands for a number that is one; [NaN], which
    the engine does not keep, is a value of its own. *)
#[warnings="-register-all"]
Inductive value : Type :=
| VNull
| VBool (b : bool)
| VNum (n : Z)
| VNaN
| VStr (s : jsstring)
| VObj (fields : list (jsstring * value)).

(** Own enumerable properties, in enumeration order. *)
Definition object := list (jsstring * value).

Definition keys (o : object) : list jsstring := map fst o.
Definition values (o : object) : list value := map snd o.

(** [typeof v == 'object' && v !== null] *)
Definition is_object (v : value) : bool :=
  match v with VObj _ => true | _ => false end.

(* ----------------------------------------------------------------- *)
(** *** Property order *)

Section PropertyOrder.
Local Open Scope N_scope.

Fixpoint digits_val (acc : N) (k : jsstring) : option N :=
  match k with
  | [] => Some acc
  | c :: k' =>
      if (48 <=? c) && (c <=? 57) then digits_val (acc * 10 + (c - 48)) k' else None
  end.

Fixpoint uint_units (d : Decimal.uint) : jsstring :=
  match d with
  | Decimal.Nil => []
  | Decimal.D0 d => 48 :: uint_units d
  | Decimal.D1 d => 49 :: uint_units d
  | Decimal.D2 d => 50 :: uint_units d
  | Decimal.D3 d => 51 :: uint_units d
  | Decimal.D4 d => 52 :: uint_units d
  | Decimal.D5 d => 53 :: uint_units d
  | Decimal.D6 d => 54 :: uint_units d
  | Decimal.D7 d => 55 :: uint_units d
  | Decimal.D8 d => 56 :: uint_units d
  | Decimal.D9 d => 57 :: uint_units d
  end.

(** [ToString] of a non-negative integer. *)
Definition to_decimal (n : N) : jsstring := uint_units (N.to_uint n).

(** The array index a property key denotes, if it is one: a canonical
    numeric string (one that [ToString] gives back) below [2^32 - 1]. *)
Definition array_index (k : jsstring) : option N :=
  match k with
  | [] => None
  | _ =>
      match digits_val 0 k with
      | Some n =>
          if (n <? 4294967295) && jseqb k (to_decimal n) then Some n else None
      | None => None
      end
  end.

(** [precedes k k']: a property [k] may be enumerated before a different
    property [k'] that was created later. Array indices come first, in
    ascending order, then the other keys in creation order. *)
Definition precedes (k k' : jsstring) : bool :=
  negb (jseqb k k') &&
  match array_index k, array_index k' with
  | Some i, Some j => i <? j
  | Some _, None => true
  | None, Some _ => false
  | None, None => true
  end.

Fixpoint ordered_keys (ks : list jsstring) : bool :=
  match ks with
  | [] => true
  | k :: ks' => forallb (precedes k) ks' && ordered_keys ks'
  end.

End PropertyOrder.

(** The property lists that are objects: no key twice, keys in
    enumeration order. *)
Definition wf_object (o : object) : Prop := ordered_keys (keys o) = true.

Definition has_key (k : jsstring) (o : object) : bool :=
  existsb (jseqb k) (keys o).

Fixpoint replace_prop (k : jsstring) (v : value) (o : object) : object :=
  match o with
  | [] => []
  | (k', v') :: o' =>
      if jseqb k k' then (k', v) :: o' else (k', v') :: replace_prop k v o'
  end.

(** Where a new array-index property goes: before the first property that
    is not a smaller array index. *)
Fixpoint insert_index (i : N) (k : jsstring) (v : value) (o : object) : object :=
  match o with
  | [] => [(k, v)]
  | (k', v') :: o' =>
      match array_index k' with
      | Some j => if (j <? i)%N then (k', v') :: insert_index i k v o' else (k, v) :: o
      | None => (k, v) :: o
      end
  end.

(** [o[k] = v] *)
Definition set_prop (o : object) (k : jsstring) (v : value) : object :=
  if has_key k o then replace_prop k v o
  else
    match array_index k with
    | Some i => insert_index i k v o
    | None => o ++ [(k, v)]
    end.

(** [o[k]] *)
Fixpoint get_prop (k : jsstring) (o : object) : option value :=
  match o with
  | [] => None
  | (k', v) :: o' => if jseqb k k' then Some v else get_prop k o'
  end.

(** [o[k] = v] for an entry [[k, v]] *)
Definition put_entry (o : object) (e : jsstring * value) : object :=
  set_prop o (fst e) (snd e).

(** [Object.fromEntries] *)
Definition fromEntries (entries : list (jsstring * value)) : object :=
  fold_left put_entry entries [].

(** [Object.assign(target, source)] *)
Definition assign (target source : object) : object :=
  fold_left put_entry source target.

(* ================================================================= *)
(** ** Quoting helpers *)

Definition dquote : jsstring := [34%N].

(** The [typeof k === 'string'] branch of [quote]. In literal mode the
    quote string is empty. *)
Definition quote_string (k : jsstring) (isColumn : bool) : jsstring :=
  let quotes := if isColumn then dquote else [] in
  let k := if isColumn then k else escape k in
  quotes ++ k ++ quotes.

Definition quote (k : value) (isColumn : bool) : value :=
  match k with
  | VStr s => VStr (quote_string s isColumn)
  | VNull => VStr (str "null")
  | VBool true => VNum 1
  | VBool false => VNum 0
  | _ => k
  end.

Definition quoteAll (arr : list value) (isColumn : bool) : list value :=
  map (fun v => quote v isColumn) arr.

(** The callback of [dequoteAll], on one entry. *)
Definition dequote_entry (e : jsstring * value) : jsstring * value :=
  match snd e with
  | VStr s => (fst e, VStr (unescape s))
  | v => (fst e, v)
  end.

Definition dequoteRow (obj : object) : object :=
  fromEntries (map dequote_entry obj).

(** [dequoteAll]; [None] is the [undefined] that [get] returns when no row
    matches, which the guard [!obj] hands back. *)
Definition dequoteAll (obj : option object) : option object :=
  match obj with
  | None => None
  | Some o => Some (dequoteRow o)
  end.

(* ================================================================= *)
(** ** Flattening *)

(** [parent ? parent + '_' + key : key]; [None] is an absent [parent], and
    the empty string is falsy as well. *)
Definition prop_name (parent : option jsstring) (key : jsstring) : jsstring :=
  match parent with
  | Some (c :: p) => (c :: p) ++ str "_" ++ key
  | _ => key
  end.

(** One iteration of the loop of [flattenObj], for the property named
    [propName] holding [v]: recurse into an object, store anything else. *)
Fixpoint flatten_into (propName : jsstring) (v : value) (res : object) {struct v}
  : object :=
  match v with
  | VObj o =>
      fold_left
        (fun res e => flatten_into (prop_name (Some propName) (fst e)) (snd e) res) o res
  | _ => set_prop res propName v
  end.

Definition flattenObj (obj : object) (parent : option jsstring) (res : object) : object :=
  fold_left (fun res e => flatten_into (prop_name parent (fst e)) (snd e) res) obj res.

(** [this.flattenObj(params)] *)
Definition flatten (params : object) : object := flattenObj params None [].

(** The leaves of a value in the order the traversal meets them, each
    with the keys that lead to it. *)
Fixpoint paths_of (v : value) : list (list jsstring * value) :=
  match v with
  | VObj o =>
      flat_map (fun e => map (fun pv => (fst e :: fst pv, snd pv)) (paths_of (snd e))) o
  | _ => [([], v)]
  end.

Definition paths (obj : object) : list (list jsstring * value) :=
  flat_map (fun e => map (fun pv => (fst e :: fst pv, snd pv)) (paths_of (snd e))) obj.

(** The property name [flattenObj] reaches below [parent] along a path. *)
Fixpoint name_under (parent : option jsstring) (path : list jsstring) : jsstring :=
  match path with
  | [] => match parent with Some p => p | None => [] end
  | key :: path' => name_under (Some (prop_name parent key)) path'
  end.

(** The entries the traversal assigns, in order. *)
Definition named (parent : option jsstring) (ps : list (list jsstring * value)) :
  list (jsstring * value) :=
  map (fun pv => (name_under parent (fst pv), snd pv)) ps.

(** Single-level mappings: no value is an object. *)
Definition flat (o : object) : Prop := Forall (fun e => is_object (snd e) = false) o.

(* ================================================================= *)
(** ** Statement builders *)

Definition AND : jsstring := str " AND ".
Definition EQ_PARAM : jsstring := str " = ?".
Definition COMMA : jsstring := str ", ".

Definition buildParamString (params : object) (joiner kvJoiner : jsstring) : jsstring :=
  let flattenedItem := flatten params in
  let paramString := map (fun e => quote_string (fst e) true ++ kvJoiner) flattenedItem in
  join joiner paramString.

Definition buildInsertQuery (table : jsstring) (params : object) : jsstring :=
  let flattenedItem := flatten params in
  let columnNamesString :=
    join COMMA (map (fun k => quote_string k true) (keys flattenedItem)) in
  let dataString := join COMMA (map (fun _ => str "?") (keys flattenedItem)) in
  str "INSERT INTO " ++ dquote ++ table ++ dquote ++ str " (" ++ columnNamesString
    ++ str ") VALUES (" ++ dataString ++ str ");".

(** A string is truthy when it is not empty. *)
Definition truthy (s : jsstring) : bool :=
  match s with [] => false | _ => true end.

Definition buildSelectQuery (table : jsstring) (params : object) : jsstring :=
  let whereString := buildParamString params AND EQ_PARAM in
  if truthy whereString then
    str "SELECT * FROM " ++ dquote ++ table ++ dquote ++ str " WHERE " ++ whereString
      ++ str ";"
  else
    str "SELECT * FROM " ++ dquote ++ table ++ dquote ++ str ";".

Definition buildUpdateQuery (table : jsstring) (valueParams whereParams : object)
  : jsstring :=
  let flattenedValues := flatten valueParams in
  let flattenedWhere := flatten whereParams in
  let valueString := buildParamString flattenedValues COMMA EQ_PARAM in
  let whereString := buildParamString flattenedWhere AND EQ_PARAM in
  if truthy whereString then
    str "UPDATE " ++ dquote ++ table ++ dquote ++ str " SET " ++ valueString
      ++ str " WHERE " ++ whereString ++ str ";"
  else
    str "UPDATE " ++ dquote ++ table ++ dquote ++ str " SET " ++ valueString
      ++ dquote ++ str ";".

(* ================================================================= *)
(** ** The connection and the executed operations *)

(** What the façade uses of a [better-sqlite3] connection. [prepare]
    compiles a statement and may throw; [run], [get] and [all] are the
    methods of a prepared statement, applied to its text and the bound
    parameters. *)
Class Driver (conn info err : Type) : Type := {
  prepare : conn -> jsstring -> option err;
  run : conn -> jsstring -> list value -> (info + err) * conn;
  get : conn -> jsstring -> list value -> option object + err;
  all : conn -> jsstring -> list value -> list object + err
}.

(** A column of a Schema Descriptor: the array [[name, type, ...]]. *)
Record column : Type := { col_name : jsstring; col_rest : list jsstring }.

(** A table of a Schema Descriptor; [columns] holds references to the
    column arrays, which [initTables] writes to. *)
Record table : Type := { tableName : jsstring; columns : list nat }.

Definition schema := list table.

(** [l[i] = x] on the store of arrays *)
Fixpoint store_at {A : Type} (i : nat) (x : A) (l : list A) : list A :=
  match l, i with
  | [], _ => []
  | _ :: l', O => x :: l'
  | y :: l', S i' => y :: store_at i' x l'
  end.

Section Facade.

Context {conn info err : Type} {D : Driver conn info err}.

Inductive exn : Type :=
| SqliteError (e : err)
| ReferenceError (name : jsstring)
| TypeError.

(** The state the methods act on: the connection [this.db], the column
    arrays reachable from the caller's Schema Descriptor, and the names
    bound in the global scope. *)
Record world : Type := {
  db : conn;
  arrays : list column;
  globals : list jsstring
}.

Definition with_db (c : conn) (w : world) : world :=
  {| db := c; arrays := arrays w; globals := globals w |}.

Definition with_arrays (a : list column) (w : world) : world :=
  {| db := db w; arrays := a; globals := globals w |}.

(** Computations that may throw; the state reached is kept either way. *)
Definition M (A : Type) : Type := world -> (A + exn) * world.

Definition ret {A : Type} (a : A) : M A := fun w => (inl a, w).

Definition throw {A : Type} (e : exn) : M A := fun w => (inr e, w).

Definition bind {A B : Type} (m : M A) (k : A -> M B) : M B :=
  fun w =>
    match m w with
    | (inl a, w') => k a w'
    | (inr e, w') => (inr e, w')
    end.

Notation "x <- m ;; k" := (bind m (fun x => k))
  (at level 61, m at next level, right associativity).
Notation "m ;;; k" := (bind m (fun _ => k))
  (at level 61, right associativity).

(** [for (x of l) body] *)
Fixpoint for_of {A : Type} (l : list A) (body : A -> M unit) : M unit :=
  match l with
  | [] => ret tt
  | x :: l' => body x ;;; for_of l' body
  end.

(** [l.map(f)] with an effectful callback *)
Fixpoint map_m {A B : Type} (f : A -> M B) (l : list A) : M (list B) :=
  match l with
  | [] => ret []
  | x :: l' => y <- f x ;; ys <- map_m f l' ;; ret (y :: ys)
  end.

(** [this.db.prepare(sql)] *)
Definition db_prepare (sql : jsstring) : M unit :=
  fun w =>
    match prepare (db w) sql with
    | None => (inl tt, w)
    | Some e => (inr (SqliteError e), w)
    end.

(** [prepared.run(...values)] *)
Definition stmt_run (sql : jsstring) (vals : list value) : M info :=
  fun w =>
    match run (db w) sql vals with
    | (inl i, c) => (inl i, with_db c w)
    | (inr e, c) => (inr (SqliteError e), with_db c w)
    end.

(** [prepared.get(...values)] *)
Definition stmt_get (sql : jsstring) (vals : list value) : M (option object) :=
  fun w =>
    match get (db w) sql vals with
    | inl r => (inl r, w)
    | inr e => (inr (SqliteError e), w)
    end.

(** [prepared.all(...values)] *)
Definition stmt_all (sql : jsstring) (vals : list value) : M (list object) :=
  fun w =>
    match all (db w) sql vals with
    | inl r => (inl r, w)
    | inr e => (inr (SqliteError e), w)
    end.

(** [this.db.prepare(sql).run()] *)
Definition db_exec (sql : jsstring) : M info :=
  db_prepare sql ;;; stmt_run sql [].

Definition BEGIN : jsstring := str "BEGIN TRANSACTION;".
Definition BEGIN_EXCLUSIVE : jsstring := str "BEGIN EXCLUSIVE TRANSACTION;".
Definition COMMIT : jsstring := str "COMMIT TRANSACTION;".

(** The callback of [table.columns.map] in [initTables]:
    [v[0] = this.quote(v[0]); return v.join(' ')]. *)
Definition quote_column (v : nat) : M jsstring :=
  fun w =>
    match nth_error (arrays w) v with
    | Some c =>
        let c' := {| col_name := quote_string (col_name c) true;
                     col_rest := col_rest c |} in
        (inl (join (str " ") (col_name c' :: col_rest c')),
         with_arrays (store_at v c' (arrays w)) w)
    | None => (inr TypeError, w)
    end.

Definition create_table_sql (name columnString : jsstring) : jsstring :=
  str "CREATE TABLE IF NOT EXISTS " ++ dquote ++ name ++ dquote ++ str " ("
    ++ columnString ++ str ");".

(** The statement [initTables] builds for one table (the first half of
    its loop body). *)
Definition table_sql (t : table) : M jsstring :=
  let name := tableName t in
  flattenedColumns <- map_m quote_column (columns t) ;;
  let columnString := join COMMA flattenedColumns in
  ret (create_table_sql name columnString).

Definition initTables (s : schema) : M unit :=
  db_exec BEGIN_EXCLUSIVE ;;;
  for_of s (fun t =>
    sql <- table_sql t ;;
    db_exec sql ;;;
    ret tt) ;;;
  db_exec COMMIT ;;;
  ret tt.

(** The constructor, on the connection [new sqlite3(filename)] returned. *)
Definition construct (s : option schema) : M unit :=
  match s with
  | Some s => initTables s
  | None => ret tt
  end.

Definition insert (t : jsstring) (params : object) : M info :=
  let query := buildInsertQuery t params in
  db_prepare query ;;;
  let vals := quoteAll (values (flatten params)) false in
  db_exec BEGIN ;;;
  i <- stmt_run query vals ;;
  db_exec COMMIT ;;;
  ret i.

Definition find (t : jsstring) (params : object) : M (list object) :=
  let query := buildSelectQuery t params in
  db_prepare query ;;;
  let vals := quoteAll (values (flatten params)) false in
  rows <- stmt_all query vals ;;
  ret (map dequoteRow rows).

Definition findOne (t : jsstring) (params : object) : M (option object) :=
  let query := buildSelectQuery t params in
  db_prepare query ;;;
  let vals := quoteAll (values (flatten params)) false in
  row <- stmt_get query vals ;;
  ret (dequoteAll row).

(** The parameters [update] binds. *)
Definition update_values (valueParams whereParams : object) : list value :=
  let params := assign (flatten valueParams) (flatten whereParams) in
  quoteAll (values (flatten params)) false.

Definition update (t : jsstring) (valueParams whereParams : object) : M info :=
  let query := buildUpdateQuery t valueParams whereParams in
  db_prepare query ;;;
  let vals := update_values valueParams whereParams in
  db_exec BEGIN ;;;
  i <- stmt_run query vals ;;
  db_exec COMMIT ;;;
  ret i.

(** The assignment to the undeclared loop variable [query]: class bodies
    are strict code, so it throws unless the global scope binds the name. *)
Definition assign_query : M unit :=
  fun w =>
    if existsb (jseqb (str "query")) (globals w) then (inl tt, w)
    else (inr (ReferenceError (str "query")), w).

Definition atomicQuery (queries : list jsstring) : M unit :=
  db_exec BEGIN_EXCLUSIVE ;;;
  for_of queries (fun q =>
    assign_query ;;;
    db_exec q ;;;
    ret tt) ;;;
  db_exec COMMIT ;;;
  ret tt.

End Facade.

Arguments exn : clear implicits.
Arguments world : clear implicits.
Arguments M : clear implicits.

Notation "x <- m ;; k" := (bind m (fun x => k))
  (at level 61, m at next level, right associativity).
Notation "m ;;; k" := (bind m (fun _ => k))
  (at level 61, right associativity).

(* ================================================================= *)
(** ** A reference store

    A connection to a store that holds at most one table, ["t"], with the
    single untyped column ["a"]. It accepts exactly the statements listed
    in [classify], keeps bound values as they are, lets the connection read
    its own uncommitted writes and refuses nested transactions, as the
    embedded engine does. It serves to run the operations on concrete
    inputs. *)

Module OneColumnStore.

Inductive err : Type :=
| SyntaxError
| NoSuchTable
| TransactionError
| BindError.

Inductive kind : Type :=
| KBegin | KCommit | KCreate | KInsert | KInsertLit (n : Z)
| KSelectAll | KSelectEq | KUpdateEq.

Definition T : jsstring := dquote ++ str "t" ++ dquote.
Definition A : jsstring := dquote ++ str "a" ++ dquote.

Definition CREATE_T : jsstring :=
  str "CREATE TABLE IF NOT EXISTS " ++ T ++ str " (" ++ A ++ str ");".
Definition INSERT_T : jsstring :=
  str "INSERT INTO " ++ T ++ str " (" ++ A ++ str ") VALUES (?);".
Definition INSERT_1 : jsstring :=
  str "INSERT INTO " ++ T ++ str " (" ++ A ++ str ") VALUES (1);".
Definition INSERT_2 : jsstring :=
  str "INSERT INTO " ++ T ++ str " (" ++ A ++ str ") VALUES (2);".
Definition SELECT_ALL : jsstring := str "SELECT * FROM " ++ T ++ str ";".
Definition SELECT_EQ : jsstring :=
  str "SELECT * FROM " ++ T ++ str " WHERE " ++ A ++ str " = ?;".
Definition UPDATE_EQ : jsstring :=
  str "UPDATE " ++ T ++ str " SET " ++ A ++ str " = ? WHERE " ++ A ++ str " = ?;".

Definition classify (sql : jsstring) : option kind :=
  if jseqb sql BEGIN || jseqb sql BEGIN_EXCLUSIVE then Some KBegin
  else if jseqb sql COMMIT then Some KCommit
  else if jseqb sql CREATE_T then Some KCreate
  else if jseqb sql INSERT_T then Some KInsert
  else if jseqb sql INSERT_1 then Some (KInsertLit 1)
  else if jseqb sql INSERT_2 then Some (KInsertLit 2)
  else if jseqb sql SELECT_ALL then Some KSelectAll
  else if jseqb sql SELECT_EQ then Some KSelectEq
  else if jseqb sql UPDATE_EQ then Some KUpdateEq
  else None.

(** [durable] is what has been committed, [live] what the connection
    sees; [None] when the table does not exist. *)
Record conn : Type := {
  durable : option (list value);
  live : option (list value);
  in_txn : bool
}.

Definition empty : conn := {| durable := None; live := None; in_txn := false |}.

(** The values a statement accepts as parameters. *)
Definition bindable (v : value) : bool :=
  match v with
  | VStr _ | VNum _ | VNaN | VNull => true
  | _ => false
  end.

(** What the engine keeps of a bound value: [NaN] becomes [NULL]. *)
Definition kept (v : value) : value :=
  match v with
  | VNaN => VNull
  | _ => v
  end.

(** The comparison [=] of the engine on stored values. *)
Definition value_eqb (a b : value) : bool :=
  match a, b with
  | VNum n, VNum m => Z.eqb n m
  | VStr s, VStr r => jseqb s r
  | _, _ => false
  end.

Definition needs_table (k : kind) : bool :=
  match k with
  | KBegin | KCommit | KCreate => false
  | _ => true
  end.

Definition prepare1 (c : conn) (sql : jsstring) : option err :=
  match classify sql with
  | None => Some SyntaxError
  | Some k =>
      if needs_table k then
        match live c with Some _ => None | None => Some NoSuchTable end
      else None
  end.

(** A write to the table: kept by the transaction when there is one,
    committed at once otherwise. *)
Definition write (rows : list value) (c : conn) : conn :=
  {| durable := if in_txn c then durable c else Some rows;
     live := Some rows;
     in_txn := in_txn c |}.

Definition run1 (c : conn) (sql : jsstring) (vals : list value) : (nat + err) * conn :=
  match classify sql, vals with
  | Some KBegin, [] =>
      if in_txn c then (inr TransactionError, c)
      else (inl 0%nat, {| durable := durable c; live := live c; in_txn := true |})
  | Some KCommit, [] =>
      if in_txn c then (inl 0%nat, {| durable := live c; live := live c; in_txn := false |})
      else (inr TransactionError, c)
  | Some KCreate, [] =>
      match live c with
      | Some _ => (inl 0%nat, c)
      | None => (inl 0%nat, write [] c)
      end
  | Some KInsert, [v] =>
      match live c with
      | Some rows =>
          if bindable v then (inl 1%nat, write (rows ++ [kept v]) c)
          else (inr BindError, c)
      | None => (inr NoSuchTable, c)
      end
  | Some (KInsertLit n), [] =>
      match live c with
      | Some rows => (inl 1%nat, write (rows ++ [VNum n]) c)
      | None => (inr NoSuchTable, c)
      end
  | Some KUpdateEq, [new; old] =>
      match live c with
      | Some rows =>
          if bindable new && bindable old then
            (inl (List.length (filter (fun r => value_eqb r old) rows)),
             write (map (fun r => if value_eqb r old then kept new else r) rows) c)
          else (inr BindError, c)
      | None => (inr NoSuchTable, c)
      end
  | Some _, _ => (inr BindError, c)
  | None, _ => (inr SyntaxError, c)
  end.

Definition row (v : value) : object := [(str "a", v)].

Definition all1 (c : conn) (sql : jsstring) (vals : list value) : list object + err :=
  match classify sql, vals, live c with
  | Some KSelectAll, [], Some rows => inl (map row rows)
  | Some KSelectEq, [v], Some rows =>
      if bindable v then inl (map row (filter (fun r => value_eqb r v) rows))
      else inr BindError
  | Some KSelectAll, _, Some _ | Some KSelectEq, _, Some _ => inr BindError
  | Some _, _, None => inr NoSuchTable
  | _, _, _ => inr SyntaxError
  end.

Definition get1 (c : conn) (sql : jsstring) (vals : list value) : option object + err :=
  match all1 c sql vals with
  | inl rows => inl (hd_error rows)
  | inr e => inr e
  end.

#[global] Instance driver : Driver conn nat err :=
  {| prepare := prepare1; run := run1; get := get1; all := all1 |}.

(** The world of a process that has just opened an empty database. *)
Definition opened (globals : list jsstring) (arrays : list column) : world conn :=
  {| db := empty; arrays := arrays; globals := globals |}.

End OneColumnStore.

(* ================================================================= *)
(** ** A freshly initialised one-column database *)

Module Fresh.
Import OneColumnStore.

(** The Schema Descriptor [[{tableName: 't', columns: [['a']]}]]; its one
    column array is at reference [0]. *)
Definition columns_t : list column := [{| col_name := str "a"; col_rest := [] |}].
Definition schema_t : schema := [{| tableName := str "t"; columns := [0%nat] |}].

(** The world after [new SqliteDatabase(filename, schema_t)]. *)
Definition world_t (globals : list jsstring) : world conn :=
  snd (construct (Some schema_t) (opened globals columns_t)).


End Fresh.

(* ================================================================= *)
(** ** Inserting and finding again *)

(** What the literal bound for a value decodes to: booleans are integers,
    [null] is the string [quote] turned it into. *)
Definition stored (v : value) : value :=
  match v with
  | VNull => VStr (str "null")
  | VBool true => VNum 1
  | VBool false => VNum 0
  | _ => v
  end.

(** The values the façade binds for scalars. *)
Definition storable (v : value) : bool :=
  match v with
  | VStr _ | VNum _ | VNaN => true
  | _ => false
  end.

Definition insert_sql (t c : jsstring) : jsstring :=
  str "INSERT INTO " ++ dquote ++ t ++ dquote ++ str " (" ++ dquote ++ c ++ dquote
    ++ str ") VALUES (?);".

Definition select_sql (t c : jsstring) : jsstring :=
  str "SELECT * FROM " ++ dquote ++ t ++ dquote ++ str " WHERE " ++ dquote ++ c
    ++ dquote ++ str " = ?;".

(* ================================================================= *)
(** ** A batch that fails half-way *)

Module Batch.
Import OneColumnStore Fresh.

(** A statement the store rejects. *)
Definition BAD : jsstring := str "INSERT INTO nowhere VALUES (2);".

(** A Schema Descriptor whose second table has no column:
    [[{tableName: 't', columns: [['a']]}, {tableName: 'u', columns: []}]]. *)
Definition schema_tu : schema :=
  [{| tableName := str "t"; columns := [0%nat] |};
   {| tableName := str "u"; columns := [] |}].

End Batch.

(* ================================================================= *)
(** ** The column arrays of a Schema Descriptor *)

(** The references to column arrays a descriptor holds, in the order
    [initTables] visits them. *)
Definition refs (s : schema) : list nat := flat_map columns s.

(** A column array after [v[0] = this.quote(v[0])]. *)
Definition quoted_column (c : column) : column :=
  {| col_name := quote_string (col_name c) true; col_rest := col_rest c |}.

(** [v.join(' ')] *)
Definition column_text (c : column) : jsstring :=
  join (str " ") (col_name c :: col_rest c).

(** The store of arrays after the writes to the references [ls], in order. *)
Definition quote_at (ls : list nat) (a : list column) : list column :=
  fold_left
    (fun a l =>
       match nth_error a l with
       | Some c => store_at l (quoted_column c) a
       | None => a
       end) ls a.

(* ================================================================= *)
(** ** A recording connection

    A connection that accepts every statement and keeps, newest first,
    what was run with which parameters; it returns no rows. It serves to
    run the methods where the reference store would refuse a statement. *)

Module Recorder.

Definition conn : Type := list (jsstring * list value).

#[global] Instance driver : Driver conn unit Empty_set :=
  {| prepare := fun _ _ => None;
     run := fun c sql vals => (inl tt, (sql, vals) :: c);
     get := fun _ _ _ => inl None;
     all := fun _ _ _ => inl [] |}.

Definition opened (arrays : list column) : world conn :=
  {| db := []; arrays := arrays; globals := [] |}.

(** A descriptor whose two tables list the same column array:
    [const id = ['id', 'INTEGER'];
     [{tableName: 'a', columns: [id]}, {tableName: 'b', columns: [id]}]]. *)
Definition shared_columns : list column :=
  [{| col_name := str "id"; col_rest := [str "INTEGER"] |}].
Definition shared_schema : schema :=
  [{| tableName := str "a"; columns := [0%nat] |};
   {| tableName := str "b"; columns := [0%nat] |}].

End Recorder.

(* ================================================================= *)
(** ** Arrays as values *)

(** The own properties of the array [[v0, v1, ...]], from index [i] on:
    an array is an object whose keys are its indices. *)
Fixpoint array_entries (i : N) (vs : list value) : object :=
  match vs with
  | [] => []
  | v :: vs' => (to_decimal i, v) :: array_entries (N.succ i) vs'
  end.

Definition array (vs : list value) : value := VObj (array_entries 0 vs).

(* ================================================================= *)
(** ** The name [__proto__] *)

(** The one name for which the assignment [res[propName] = v] of the
    source is not the creation of a property but a call of the accessor
    that plain objects inherit. *)
Definition proto_name : jsstring := str "__proto__".

(** The mappings none of whose leaves is stored under that name; for them
    [set_prop] is what every assignment of [flattenObj] does. *)
Definition proto_free (obj : object) : Prop :=
  Forall (fun pv => name_under None (fst pv) <> proto_name) (paths obj).

(* ================================================================= *)
(** * Properties *)

(* ----------------------------------------------------------------- *)
(** ** Strings *)

Lemma jseqb_eq (a b : jsstring) : jseqb a b = true <-> a = b.
Proof.
  revert b; induction a as [|x a IH]; intros [|y b]; simpl; split;
    try congruence; try reflexivity.
  - intros H. apply andb_true_iff in H as [Hx Hab].
    apply N.eqb_eq in Hx. apply IH in Hab. congruence.
  - intros H. injection H as -> ->.
    apply andb_true_iff. split; [apply N.eqb_refl | now apply IH].
Qed.

Lemma jseqb_refl (a : jsstring) : jseqb a a = true.
Proof. now apply jseqb_eq. Qed.

Lemma jseqb_neq (a b : jsstring) : jseqb a b = false <-> a <> b.
Proof.
  split.
  - intros H E. apply jseqb_eq in E. congruence.
  - intros H. destruct (jseqb a b) eqn:E; [|reflexivity].
    apply jseqb_eq in E. contradiction.
Qed.

Lemma jseqb_sym (a b : jsstring) : jseqb a b = jseqb b a.
Proof.
  destruct (jseqb a b) eqn:E; symmetry.
  - apply jseqb_eq in E. subst. apply jseqb_refl.
  - apply jseqb_neq in E. apply jseqb_neq. congruence.
Qed.

Lemma str_app (a b : string) : str (a ++ b) = str a ++ str b.
Proof.
  unfold str. induction a as [|c a IH]; simpl; [reflexivity|].
  f_equal. exact IH.
Qed.

Lemma join_nil_iff (sep : jsstring) (l : list jsstring) :
  (forall x, In x l -> x <> []) -> (join sep l = [] <-> l = []).
Proof.
  intros Hne. split; [|intros ->; reflexivity].
  destruct l as [|x l]; [reflexivity|]. intros H. exfalso.
  assert (Hx : x <> []) by (apply Hne; now left).
  destruct x as [|c x]; [congruence|].
  destruct l; simpl in H; discriminate.
Qed.

(* ----------------------------------------------------------------- *)
(** ** [unescape] undoes [escape] *)

Section EscapeRoundTrip.
Local Open Scope N_scope.

Ltac split_tests :=
  repeat match goal with
    | |- context [?a <=? ?b] => destruct (N.leb_spec a b)
    | |- context [?a <? ?b] => destruct (N.ltb_spec a b)
    | |- context [?a =? ?b] => destruct (N.eqb_spec a b)
    end; cbn [andb].

Lemma hexval_hexdigit (d : N) : d < 16 -> hexval (hexdigit d) = Some d.
Proof.
  intros H. unfold hexval, hexdigit.
  split_tests; try lia; f_equal; lia.
Qed.

Lemma hexdigit_not_u (d : N) : d < 16 -> (hexdigit d =? letter_u) = false.
Proof.
  intros H. unfold hexdigit, letter_u. split_tests; try lia; reflexivity.
Qed.

Lemma unescaped_not_percent (c : N) : unescaped c = true -> (c =? percent) = false.
Proof.
  intros H. destruct (N.eqb_spec c percent) as [->|]; [|reflexivity].
  vm_compute in H. discriminate.
Qed.

Lemma hex4_not_u (a : N) (rest : jsstring) :
  (a =? letter_u) = false -> hex4 (a :: rest) = None.
Proof.
  intros H. destruct rest as [|b [|c [|d [|e rest]]]]; simpl; try reflexivity.
  now rewrite H.
Qed.

Lemma byte_digits (c : N) : c < 256 -> c / 16 < 16 /\ c mod 16 < 16 /\ c / 16 * 16 + c mod 16 = c.
Proof.
  intros H. pose proof (N.div_mod c 16 ltac:(lia)).
  pose proof (N.mod_lt c 16 ltac:(lia)).
  assert (c / 16 < 16) by (apply N.Div0.div_lt_upper_bound; lia).
  lia.
Qed.

Lemma unit_digits (c : N) :
  c < 65536 ->
  (((c / 16 / 16 / 16 mod 16) * 16 + c / 16 / 16 mod 16) * 16 + c / 16 mod 16) * 16
    + c mod 16 = c.
Proof.
  intros H.
  pose proof (N.div_mod c 16). pose proof (N.div_mod (c / 16) 16).
  pose proof (N.div_mod (c / 16 / 16) 16).
  assert (c / 16 / 16 / 16 < 16)
    by (repeat apply N.Div0.div_lt_upper_bound; lia).
  rewrite (N.mod_small (c / 16 / 16 / 16) 16) by lia. lia.
Qed.

Lemma unescape_escape_unit (c : N) (t : jsstring) :
  c < 65536 ->
  unescape_from 0 (escape_unit c ++ t) = c :: unescape_from 0 t.
Proof.
  intros Hc. unfold escape_unit.
  destruct (unescaped c) eqn:Hu.
  - cbn [app unescape_from]. now rewrite (unescaped_not_percent _ Hu).
  - destruct (N.ltb_spec c 256) as [Hlt|Hge].
    + destruct (byte_digits Hlt) as (H1 & H2 & H3).
      cbn [app unescape_from]. rewrite N.eqb_refl.
      unfold decode_at.
      rewrite hex4_not_u by now apply hexdigit_not_u.
      cbn [hex2]. rewrite !hexval_hexdigit by assumption.
      rewrite H3. reflexivity.
    + assert (Hm : forall x, x mod 16 < 16) by (intros; apply N.mod_lt; lia).
      cbn [app unescape_from]. rewrite N.eqb_refl.
      unfold decode_at. cbn [hex4]. rewrite N.eqb_refl.
      rewrite !hexval_hexdigit by apply Hm.
      rewrite (unit_digits Hc). reflexivity.
Qed.

Lemma unescape_escape (s : jsstring) :
  code_units s -> unescape (escape s) = s.
Proof.
  unfold unescape, escape. induction 1 as [|c s Hc Hs IH]; [reflexivity|].
  cbn [flat_map]. rewrite unescape_escape_unit by exact Hc. now rewrite IH.
Qed.

End EscapeRoundTrip.

(* ----------------------------------------------------------------- *)
(** ** Objects: property assignment keeps the enumeration order *)

Section Objects.
Local Open Scope N_scope.

Lemma array_index_canonical (k : jsstring) (n : N) :
  array_index k = Some n -> k = to_decimal n.
Proof.
  unfold array_index. destruct k as [|c k]; [discriminate|].
  destruct (digits_val 0 (c :: k)) as [m|]; [|discriminate].
  destruct ((m <? 4294967295) && jseqb (c :: k) (to_decimal m)) eqn:E; [|discriminate].
  intros [= <-]. apply andb_true_iff in E as [_ E]. now apply jseqb_eq.
Qed.

Lemma array_index_inj (k k' : jsstring) (n : N) :
  array_index k = Some n -> array_index k' = Some n -> k = k'.
Proof.
  intros H H'. apply array_index_canonical in H, H'. congruence.
Qed.

Lemma precedes_neq (k k' : jsstring) : precedes k k' = true -> k <> k'.
Proof.
  unfold precedes. intros H. apply andb_true_iff in H as [H _].
  apply negb_true_iff in H. now apply jseqb_neq.
Qed.

Lemma keys_app (a b : object) : keys (a ++ b) = keys a ++ keys b.
Proof. apply map_app. Qed.

Lemma keys_replace_prop (k : jsstring) (v : value) (o : object) :
  keys (replace_prop k v o) = keys o.
Proof.
  induction o as [|[k' v'] o IH]; [reflexivity|]. simpl.
  destruct (jseqb k k'); simpl; [reflexivity | now rewrite IH].
Qed.

Lemma has_key_false (k : jsstring) (o : object) :
  has_key k o = false <-> (forall k', In k' (keys o) -> k <> k').
Proof.
  unfold has_key. split.
  - intros H k' Hin E. subst k'.
    assert (existsb (jseqb k) (keys o) = true); [|congruence].
    apply existsb_exists. exists k. split; [assumption | apply jseqb_refl].
  - intros H. destruct (existsb (jseqb k) (keys o)) eqn:E; [|reflexivity].
    apply existsb_exists in E as (k' & Hin & E). apply jseqb_eq in E.
    exfalso. exact (H k' Hin E).
Qed.

Lemma has_key_true (k : jsstring) (o : object) :
  has_key k o = true <-> In k (keys o).
Proof.
  unfold has_key. rewrite existsb_exists. split.
  - intros (k' & Hin & E). apply jseqb_eq in E. now subst.
  - intros H. exists k. split; [assumption | apply jseqb_refl].
Qed.

Lemma ordered_keys_app (a b : list jsstring) :
  ordered_keys (a ++ b) = true <->
  ordered_keys a = true /\ ordered_keys b = true /\
  (forall x y, In x a -> In y b -> precedes x y = true).
Proof.
  induction a as [|k a IH]; simpl.
  - split; [intros H; repeat split; [assumption | intros ? ? []] | tauto].
  - rewrite !andb_true_iff, !forallb_forall, IH. split.
    + intros (Hk & Ha & Hb & Hab). repeat split; try assumption.
      * intros x Hx. apply Hk, in_or_app. now left.
      * intros x y [<-|Hx] Hy; [apply Hk, in_or_app; now right | now apply Hab].
    + intros ((Hk & Ha) & Hb & Hab). repeat split; try assumption.
      * intros x Hx. apply in_app_or in Hx as [Hx|Hx]; [now apply Hk|].
        apply Hab; [now left | assumption].
      * intros x y Hx Hy. apply Hab; [now right | assumption].
Qed.

Lemma ordered_keys_snoc (ks : list jsstring) (k : jsstring) :
  ordered_keys (ks ++ [k]) = true <->
  ordered_keys ks = true /\ (forall x, In x ks -> precedes x k = true).
Proof.
  rewrite ordered_keys_app. simpl. split.
  - intros (H & _ & Hk). split; [assumption|]. intros x Hx. apply Hk; [assumption | now left].
  - intros (H & Hk). repeat split; try assumption.
    intros x y Hx [<-|[]]. now apply Hk.
Qed.

Lemma set_prop_nil (k : jsstring) (v : value) : set_prop [] k v = [(k, v)].
Proof. unfold set_prop. simpl. now destruct (array_index k). Qed.

Lemma insert_index_last (i : N) (k : jsstring) (v : value) (o : object) :
  array_index k = Some i ->
  (forall x, In x (keys o) -> precedes x k = true) ->
  insert_index i k v o = o ++ [(k, v)].
Proof.
  intros Hi. induction o as [|[k' v'] o IH]; intros H; [reflexivity|].
  simpl. assert (Hk' : precedes k' k = true) by (apply H; now left).
  unfold precedes in Hk'. rewrite Hi in Hk'.
  apply andb_true_iff in Hk' as [_ Hk'].
  destruct (array_index k') as [j|]; [|discriminate].
  rewrite Hk'. f_equal. apply IH. intros x Hx. apply H. now right.
Qed.

(** Assigning a property that comes after all the others appends it. *)
Lemma set_prop_last (o : object) (k : jsstring) (v : value) :
  (forall x, In x (keys o) -> precedes x k = true) ->
  set_prop o k v = o ++ [(k, v)].
Proof.
  intros H. unfold set_prop.
  assert (Hk : has_key k o = false).
  { apply has_key_false. intros k' Hin E. subst k'.
    exact (precedes_neq (H k Hin) eq_refl). }
  rewrite Hk. destruct (array_index k) as [i|] eqn:Hi; [|reflexivity].
  now apply insert_index_last.
Qed.

Lemma in_keys_insert_index (i : N) (k : jsstring) (v : value) (o : object) (x : jsstring) :
  In x (keys (insert_index i k v o)) <-> x = k \/ In x (keys o).
Proof.
  induction o as [|[k' v'] o IH]; simpl.
  - intuition congruence.
  - destruct (array_index k') as [j|]; [destruct (j <? i)|]; simpl;
      rewrite ?IH; intuition congruence.
Qed.

Lemma insert_index_ordered (i : N) (k : jsstring) (v : value) (o : object) :
  array_index k = Some i ->
  has_key k o = false ->
  ordered_keys (keys o) = true ->
  ordered_keys (keys (insert_index i k v o)) = true.
Proof.
  intros Hi. induction o as [|[k' v'] o IH]; intros Hk Ho; [reflexivity|].
  assert (Hne : k <> k').
  { intros E. rewrite has_key_false in Hk. apply (Hk k'); [now left | exact E]. }
  assert (Hk' : has_key k o = false).
  { rewrite has_key_false in *. intros x Hx. apply Hk. now right. }
  simpl in Ho. apply andb_true_iff in Ho as [Hhd Ho].
  rewrite forallb_forall in Hhd.
  cbn [insert_index]. destruct (array_index k') as [j|] eqn:Hj; [destruct (N.ltb_spec j i) as [Hlt|Hge]|].
  - (* the new property goes further down *)
    cbn [keys map fst ordered_keys]. apply andb_true_iff. split; [|now apply IH].
    apply forallb_forall. intros x Hx. apply in_keys_insert_index in Hx as [->|Hx].
    + unfold precedes. rewrite Hj, Hi.
      apply andb_true_iff. split.
      * apply negb_true_iff, jseqb_neq. congruence.
      * now apply N.ltb_lt.
    + now apply Hhd.
  - (* the new property goes here, before a larger index *)
    assert (Hij : i < j).
    { destruct (N.eq_dec i j) as [->|]; [|lia].
      exfalso. apply Hne. exact (array_index_inj _ _ Hi Hj). }
    cbn [keys map fst ordered_keys forallb]. rewrite !andb_true_iff. repeat split.
    + unfold precedes. rewrite Hi, Hj. apply andb_true_iff. split.
      * now apply negb_true_iff, jseqb_neq.
      * now apply N.ltb_lt.
    + apply forallb_forall. intros x Hx.
      specialize (Hhd x Hx). unfold precedes in *. rewrite Hi. rewrite Hj in Hhd.
      apply andb_true_iff in Hhd as [_ Hhd]. apply andb_true_iff. split.
      * apply negb_true_iff, jseqb_neq. rewrite has_key_false in Hk'. now apply Hk'.
      * destruct (array_index x) as [j'|]; [|reflexivity].
        apply N.ltb_lt in Hhd. apply N.ltb_lt. lia.
    + now apply forallb_forall.
    + exact Ho.
  - (* the new property goes here, before the first name *)
    cbn [keys map fst ordered_keys forallb]. rewrite !andb_true_iff. repeat split.
    + unfold precedes. rewrite Hi, Hj. apply andb_true_iff. split; [|reflexivity].
      now apply negb_true_iff, jseqb_neq.
    + apply forallb_forall. intros x Hx.
      specialize (Hhd x Hx). unfold precedes in *. rewrite Hi. rewrite Hj in Hhd.
      apply andb_true_iff in Hhd as [_ Hhd]. apply andb_true_iff. split.
      * apply negb_true_iff, jseqb_neq. rewrite has_key_false in Hk'. now apply Hk'.
      * destruct (array_index x); [discriminate | reflexivity].
    + now apply forallb_forall.
    + exact Ho.
Qed.

(** Assignment keeps a property list an object. *)
Lemma set_prop_wf (o : object) (k : jsstring) (v : value) :
  wf_object o -> wf_object (set_prop o k v).
Proof.
  unfold wf_object, set_prop. intros Ho.
  destruct (has_key k o) eqn:Hk.
  - now rewrite keys_replace_prop.
  - destruct (array_index k) as [i|] eqn:Hi.
    + now apply insert_index_ordered.
    + rewrite keys_app. apply ordered_keys_snoc. split; [assumption|].
      intros x Hx. cbn [fst]. unfold precedes. rewrite Hi.
      apply andb_true_iff. split.
      * apply negb_true_iff, jseqb_neq. rewrite has_key_false in Hk.
        intros E. now apply (Hk x Hx).
      * now destruct (array_index x).
Qed.

End Objects.

(* ----------------------------------------------------------------- *)
(** ** Sequences of assignments *)

Lemma fold_put_wf (l : list (jsstring * value)) (res : object) :
  wf_object res -> wf_object (fold_left put_entry l res).
Proof.
  revert res. induction l as [|e l IH]; intros res H; [exact H|].
  simpl. apply IH. now apply set_prop_wf.
Qed.

(** Assigning, in order, properties that extend an object leaves them in
    the order they were assigned. *)
Lemma fold_put_app (l : list (jsstring * value)) (res : object) :
  wf_object (res ++ l) -> fold_left put_entry l res = res ++ l.
Proof.
  revert res. induction l as [|e l IH]; intros res H.
  - now rewrite app_nil_r.
  - simpl. unfold put_entry at 2. rewrite set_prop_last.
    + destruct e as [k v]. rewrite IH; rewrite <- app_assoc; [reflexivity | exact H].
    + unfold wf_object in H. rewrite keys_app in H.
      apply ordered_keys_app in H as (_ & _ & H).
      intros x Hx. apply H; [assumption | now left].
Qed.

Lemma fromEntries_wf (o : object) : wf_object o -> fromEntries o = o.
Proof. intros H. unfold fromEntries. now rewrite fold_put_app. Qed.

Lemma in_replace_prop (k : jsstring) (v : value) (o : object) (e : jsstring * value) :
  In e (replace_prop k v o) -> e = (k, v) \/ In e o.
Proof.
  induction o as [|[k' v'] o IH]; simpl; [tauto|].
  destruct (jseqb k k') eqn:E; simpl.
  - apply jseqb_eq in E. subst k'. intuition congruence.
  - intros [H|H]; [tauto | apply IH in H; tauto].
Qed.

Lemma in_insert_index (i : N) (k : jsstring) (v : value) (o : object) (e : jsstring * value) :
  In e (insert_index i k v o) -> e = (k, v) \/ In e o.
Proof.
  induction o as [|[k' v'] o IH]; simpl; [intuition congruence|].
  destruct (array_index k') as [j|]; [destruct (j <? i)%N|]; simpl;
    intuition congruence.
Qed.

Lemma in_set_prop (o : object) (k : jsstring) (v : value) (e : jsstring * value) :
  In e (set_prop o k v) -> e = (k, v) \/ In e o.
Proof.
  unfold set_prop. destruct (has_key k o); [apply in_replace_prop|].
  destruct (array_index k); [apply in_insert_index|].
  intros H. apply in_app_or in H as [H|[H|[]]]; [tauto | left; congruence].
Qed.

Lemma in_fold_put (l : list (jsstring * value)) (res : object) (e : jsstring * value) :
  In e (fold_left put_entry l res) -> In e res \/ In e l.
Proof.
  revert res. induction l as [|e' l IH]; intros res H; [tauto|].
  simpl in H. apply IH in H as [H|H]; [|simpl; tauto].
  apply in_set_prop in H as [H|H]; [|tauto].
  right. left. destruct e'. simpl in H. congruence.
Qed.

(* ----------------------------------------------------------------- *)
(** ** Flattening as a sequence of assignments *)

Lemma value_ind' (P : value -> Prop) :
  P VNull -> (forall b, P (VBool b)) -> (forall n, P (VNum n)) -> P VNaN ->
  (forall s, P (VStr s)) ->
  (forall o, Forall (fun e => P (snd e)) o -> P (VObj o)) ->
  forall v, P v.
Proof.
  intros H1 H2 H3 Hn H4 H5. fix IH 1. intros [|b|n| |s|o];
    [exact H1 | apply H2 | apply H3 | exact Hn | apply H4 |].
  apply H5. induction o as [|e o IHo]; constructor; [apply IH | exact IHo].
Qed.

Lemma named_app (parent : option jsstring) (a b : list (list jsstring * value)) :
  named parent (a ++ b) = named parent a ++ named parent b.
Proof. apply map_app. Qed.

Lemma named_cons_key (parent : option jsstring) (k : jsstring)
      (ps : list (list jsstring * value)) :
  named parent (map (fun pv => (k :: fst pv, snd pv)) ps)
  = named (Some (prop_name parent k)) ps.
Proof. unfold named. rewrite map_map. reflexivity. Qed.

(** The body of the loop, as in the source. *)
Lemma flattenObj_cons (key : jsstring) (v : value) (obj : object)
      (parent : option jsstring) (res : object) :
  flattenObj ((key, v) :: obj) parent res =
  let propName := prop_name parent key in
  flattenObj obj parent
    (match v with
     | VObj o => flattenObj o (Some propName) res
     | _ => set_prop res propName v
     end).
Proof. destruct v; reflexivity. Qed.

Lemma flatten_into_paths (v : value) :
  forall (p : jsstring) (res : object),
    flatten_into p v res = fold_left put_entry (named (Some p) (paths_of v)) res.
Proof.
  induction v as [|b|n| |s|o IH] using value_ind'; intros p res; try reflexivity.
  cbn [flatten_into paths_of]. revert res.
  induction IH as [|e o He _ IHo]; intros res; [reflexivity|].
  cbn [fold_left flat_map]. rewrite named_app, fold_left_app, named_cons_key.
  rewrite <- He. apply IHo.
Qed.

Lemma flattenObj_paths (obj : object) (parent : option jsstring) (res : object) :
  flattenObj obj parent res = fold_left put_entry (named parent (paths obj)) res.
Proof.
  unfold flattenObj, paths. revert res.
  induction obj as [|e obj IH]; intros res; [reflexivity|].
  cbn [fold_left flat_map]. rewrite named_app, fold_left_app, named_cons_key.
  rewrite <- flatten_into_paths. apply IH.
Qed.

Lemma flatten_paths (obj : object) :
  flatten obj = fromEntries (named None (paths obj)).
Proof. apply flattenObj_paths. Qed.

Lemma paths_of_leaves (v : value) :
  Forall (fun pv => is_object (snd pv) = false) (paths_of v).
Proof.
  induction v as [|b|n| |s|o IH] using value_ind';
    try (constructor; [reflexivity | constructor]).
  cbn [paths_of]. induction IH as [|e o He _ IHo]; [constructor|].
  cbn [flat_map]. apply Forall_app. split; [|exact IHo].
  apply Forall_map. exact He.
Qed.

Lemma paths_leaves (obj : object) :
  Forall (fun pv => is_object (snd pv) = false) (paths obj).
Proof. exact (paths_of_leaves (VObj obj)). Qed.

Lemma flatten_wf (obj : object) : wf_object (flatten obj).
Proof. rewrite flatten_paths. now apply fold_put_wf. Qed.

Lemma flatten_flat (obj : object) : flat (flatten obj).
Proof.
  rewrite flatten_paths. apply Forall_forall. intros e He.
  apply in_fold_put in He as [[]|He].
  unfold named in He. apply in_map_iff in He as (pv & <- & Hpv).
  pose proof (paths_leaves obj) as H. rewrite Forall_forall in H.
  now apply H.
Qed.

Lemma paths_flat (obj : object) :
  flat obj -> named None (paths obj) = obj.
Proof.
  induction 1 as [|[k v] obj Hv _ IH]; [reflexivity|].
  unfold paths. cbn [flat_map]. rewrite named_app. fold (paths obj). rewrite IH.
  destruct v; try discriminate; reflexivity.
Qed.

(** Flattening an object that is already flat gives it back. *)
Lemma flatten_flat_id (obj : object) :
  wf_object obj -> flat obj -> flatten obj = obj.
Proof.
  intros Hwf Hflat. rewrite flatten_paths, paths_flat by assumption.
  now apply fromEntries_wf.
Qed.

Lemma flatten_idempotent (obj : object) : flatten (flatten obj) = flatten obj.
Proof. apply flatten_flat_id; [apply flatten_wf | apply flatten_flat]. Qed.

(* ----------------------------------------------------------------- *)
(** ** The statement builders *)

Lemma quote_string_column (k : jsstring) :
  quote_string k true = dquote ++ k ++ dquote.
Proof. reflexivity. Qed.

Lemma quote_string_literal (s : jsstring) : quote_string s false = escape s.
Proof. unfold quote_string. simpl. apply app_nil_r. Qed.

(** The [WHERE] and [SET] clauses list the flattened keys. *)
Lemma buildParamString_keys (params : object) (joiner kvJoiner : jsstring) :
  buildParamString params joiner kvJoiner =
  join joiner (map (fun k => dquote ++ k ++ dquote ++ kvJoiner) (keys (flatten params))).
Proof.
  unfold buildParamString, keys. rewrite map_map. f_equal.
  apply map_ext. intros e. rewrite quote_string_column.
  now rewrite <- !app_assoc.
Qed.

Lemma truthy_join (sep : jsstring) (l : list jsstring) :
  (forall x, In x l -> x <> []) ->
  truthy (join sep l) = match l with [] => false | _ => true end.
Proof.
  intros H. destruct l as [|x l]; [reflexivity|].
  assert (Hx : x <> []) by (apply H; now left).
  destruct x as [|c x]; [congruence|]. destruct l; reflexivity.
Qed.

Lemma truthy_buildParamString (params : object) (joiner kvJoiner : jsstring) :
  truthy (buildParamString params joiner kvJoiner) =
  match keys (flatten params) with [] => false | _ => true end.
Proof.
  rewrite buildParamString_keys, truthy_join.
  - now destruct (keys (flatten params)).
  - intros x Hx. apply in_map_iff in Hx as (k & <- & _). discriminate.
Qed.

Lemma buildParamString_flatten (params : object) (joiner kvJoiner : jsstring) :
  buildParamString (flatten params) joiner kvJoiner
  = buildParamString params joiner kvJoiner.
Proof. unfold buildParamString. now rewrite flatten_idempotent. Qed.

Lemma flatten_nil : flatten [] = [].
Proof. reflexivity. Qed.

(** A single scalar field flattens to itself. *)
Lemma flatten_single (k : jsstring) (v : value) :
  is_object v = false -> flatten [(k, v)] = [(k, v)].
Proof.
  intros H. apply flatten_flat_id.
  - reflexivity.
  - constructor; [exact H | constructor].
Qed.

(* ----------------------------------------------------------------- *)
(** ** [quote] in literal mode *)

(** C1 fails on the code: the documentation of [quote] promises single
    quotes around a string rendered as a literal, but in literal mode the
    quote string is empty, so the string [a] comes back as [a], not as
    ['a']. *)
Lemma quote_literal_no_single_quotes :
  quote (VStr (str "a")) false = VStr (str "a")
  /\ quote (VStr (str "a")) false <> VStr (str "'" ++ escape (str "a") ++ str "'").
Proof. split; [reflexivity | discriminate]. Qed.

(** What [quote] returns in literal mode, case by case. *)
Lemma quote_literal (v : value) :
  quote v false =
  match v with
  | VStr s => VStr (escape s)
  | VNull => VStr (str "null")
  | VBool true => VNum 1
  | VBool false => VNum 0
  | _ => v
  end.
Proof.
  destruct v as [|[|]|n| |s|o]; try reflexivity.
  simpl. now rewrite quote_string_literal.
Qed.

(* ----------------------------------------------------------------- *)
(** ** Decoding *)

(** What decoding does to one field value. *)
Lemma dequote_entry_value (k : jsstring) (v : value) :
  dequote_entry (k, v) = (k, match v with VStr s => VStr (unescape s) | _ => v end).
Proof. now destruct v. Qed.

Lemma keys_dequote (row : object) : keys (map dequote_entry row) = keys row.
Proof.
  unfold keys. rewrite map_map. apply map_ext.
  intros [k v]. now destruct v.
Qed.

Lemma dequoteRow_map (row : object) :
  wf_object row -> dequoteRow row = map dequote_entry row.
Proof.
  intros H. apply fromEntries_wf. unfold wf_object. now rewrite keys_dequote.
Qed.

(** C4: decoding undoes the percent-encoding of the literal quoting path,
    [unescape (escape s) = s] for every string [s]; and the decode helper
    keeps the fields of a row and their order, replaces each string value
    by its [unescape] and leaves every other value as it is. *)
Theorem decode_encode_round_trip (s : jsstring) (row : object) :
  code_units s ->
  wf_object row ->
  unescape (escape s) = s
  /\ (forall k, dequoteAll (Some [(k, quote (VStr s) false)]) = Some [(k, VStr s)])
  /\ dequoteAll (Some row)
     = Some (map (fun e => (fst e, match snd e with
                                   | VStr x => VStr (unescape x)
                                   | v => v
                                   end)) row).
Proof.
  intros Hs Hrow. split; [now apply unescape_escape | split].
  - intros k. cbn [dequoteAll quote]. rewrite quote_string_literal.
    unfold dequoteRow. cbn [map]. rewrite dequote_entry_value.
    rewrite unescape_escape by assumption.
    unfold fromEntries, put_entry. cbn [fold_left fst snd].
    now rewrite set_prop_nil.
  - cbn [dequoteAll]. rewrite dequoteRow_map by assumption. f_equal.
    apply map_ext. intros [k v]. now destruct v.
Qed.

Ltac code_units_tac := repeat (constructor; [reflexivity|]); constructor.

Lemma decode_encode_round_trip_witness :
  let s := str "it's 100% ok" in
  let row := [(str "q", VStr (str "a%20b")); (str "n", VNum 3)] in
  code_units s /\ wf_object row
  /\ (unescape (escape s) = s
      /\ (forall k, dequoteAll (Some [(k, quote (VStr s) false)]) = Some [(k, VStr s)])
      /\ dequoteAll (Some row)
         = Some (map (fun e => (fst e, match snd e with
                                       | VStr x => VStr (unescape x)
                                       | v => v
                                       end)) row)).
Proof.
  assert (Hs : code_units (str "it's 100% ok")) by (unfold code_units; code_units_tac).
  assert (Hrow : wf_object [(str "q", VStr (str "a%20b")); (str "n", VNum 3)])
    by reflexivity.
  split; [exact Hs | split; [exact Hrow |]].
  exact (decode_encode_round_trip Hs Hrow).
Defined.

(* ----------------------------------------------------------------- *)
(** ** Select and update statements *)

Lemma eq_param_clause (k : jsstring) :
  dquote ++ k ++ dquote ++ EQ_PARAM = dquote ++ k ++ dquote ++ str " = ?".
Proof. reflexivity. Qed.

(** C7: with an empty filter the select statement has no [WHERE] clause;
    with the filter [{a: 1}] it is [SELECT * FROM "table" WHERE "a" = ?;];
    in general the clause lists the flattened filter's keys in order, each
    as ["key" = ?], joined by [ AND ]. *)
Theorem buildSelectQuery_shape (t : jsstring) (params : object) :
  buildSelectQuery t [] = str "SELECT * FROM " ++ dquote ++ t ++ dquote ++ str ";"
  /\ buildSelectQuery t [(str "a", VNum 1)]
     = str "SELECT * FROM " ++ dquote ++ t ++ dquote ++ str " WHERE "
         ++ dquote ++ str "a" ++ dquote ++ str " = ?" ++ str ";"
  /\ buildSelectQuery t params
     = match keys (flatten params) with
       | [] => str "SELECT * FROM " ++ dquote ++ t ++ dquote ++ str ";"
       | ks =>
           str "SELECT * FROM " ++ dquote ++ t ++ dquote ++ str " WHERE "
             ++ join (str " AND ")
                  (map (fun k => dquote ++ k ++ dquote ++ str " = ?") ks)
             ++ str ";"
       end.
Proof.
  assert (H : forall p, buildSelectQuery t p
     = match keys (flatten p) with
       | [] => str "SELECT * FROM " ++ dquote ++ t ++ dquote ++ str ";"
       | ks =>
           str "SELECT * FROM " ++ dquote ++ t ++ dquote ++ str " WHERE "
             ++ join (str " AND ")
                  (map (fun k => dquote ++ k ++ dquote ++ str " = ?") ks)
             ++ str ";"
       end).
  { intros p. unfold buildSelectQuery.
    rewrite truthy_buildParamString, buildParamString_keys.
    destruct (keys (flatten p)); reflexivity. }
  split; [|split].
  - now rewrite H.
  - rewrite H, flatten_single by reflexivity. reflexivity.
  - apply H.
Qed.

(** C3: with the values [{a: 1}] and the filter [{b: 2}] the update
    statement is [UPDATE "table" SET "a" = ? WHERE "b" = ?;]; with an empty
    filter it is the [SET]-only statement with a quotation mark before the
    final semicolon, and so is not the clean [SET]-only statement. *)
Theorem buildUpdateQuery_shape (t : jsstring) (valueParams : object) :
  buildUpdateQuery t [(str "a", VNum 1)] [(str "b", VNum 2)]
  = str "UPDATE " ++ dquote ++ t ++ dquote ++ str " SET "
      ++ dquote ++ str "a" ++ dquote ++ str " = ?"
      ++ str " WHERE " ++ dquote ++ str "b" ++ dquote ++ str " = ?" ++ str ";"
  /\ (let set_clause :=
        join (str ", ")
          (map (fun k => dquote ++ k ++ dquote ++ str " = ?")
               (keys (flatten valueParams))) in
      buildUpdateQuery t valueParams []
      = str "UPDATE " ++ dquote ++ t ++ dquote ++ str " SET " ++ set_clause
          ++ dquote ++ str ";"
      /\ buildUpdateQuery t valueParams []
         <> str "UPDATE " ++ dquote ++ t ++ dquote ++ str " SET " ++ set_clause
              ++ str ";").
Proof.
  split.
  - unfold buildUpdateQuery.
    rewrite !buildParamString_flatten, truthy_buildParamString.
    rewrite !buildParamString_keys, !flatten_single by reflexivity.
    reflexivity.
  - cbv zeta.
    assert (E : buildUpdateQuery t valueParams []
      = str "UPDATE " ++ dquote ++ t ++ dquote ++ str " SET "
          ++ join (str ", ")
               (map (fun k => dquote ++ k ++ dquote ++ str " = ?")
                    (keys (flatten valueParams)))
          ++ dquote ++ str ";").
    { unfold buildUpdateQuery.
      rewrite !buildParamString_flatten, truthy_buildParamString.
      rewrite flatten_nil, buildParamString_keys. reflexivity. }
    split; [exact E|]. rewrite E. intros H.
    repeat (apply app_inv_head in H). discriminate.
Qed.

(* ----------------------------------------------------------------- *)
(** ** The parameters [update] binds *)

Lemma values_app (a b : object) : values (a ++ b) = values a ++ values b.
Proof. apply map_app. Qed.

(** When the flattened values and the flattened filter, one after the
    other, still form an object (no key in both, no array index after a
    name), [update] binds the values and then the filter's values. *)
Lemma update_values_disjoint (valueParams whereParams : object) :
  wf_object (flatten valueParams ++ flatten whereParams) ->
  update_values valueParams whereParams
  = quoteAll (values (flatten valueParams) ++ values (flatten whereParams)) false.
Proof.
  intros H. unfold update_values, assign.
  rewrite fold_put_app by exact H.
  rewrite flatten_flat_id, values_app; [reflexivity | exact H |].
  apply Forall_app. split; apply flatten_flat.
Qed.

(** C2 fails on the code: [update] merges the two flattened mappings with
    [Object.assign] before taking the values. With the values [{a: 1}] and
    the filter [{a: 2}] the statement has two placeholders, the values
    followed by the filter's values are [[1, 2]], and the list bound is
    [[2]], which the store refuses;
    with the values [{b: 1}] and the filter [{'1': 2}] the list bound is
    [[2, 1]], not [[1, 2]]. *)
Theorem update_binds_merged_values :
  let v := [(str "a", VNum 1)] in
  let f := [(str "a", VNum 2)] in
  buildUpdateQuery (str "t") v f = OneColumnStore.UPDATE_EQ
  /\ quoteAll (values (flatten v) ++ values (flatten f)) false = [VNum 1; VNum 2]
  /\ update_values v f = [VNum 2]
  /\ fst (update (str "t") v f (Fresh.world_t []))
     = inr (SqliteError OneColumnStore.BindError)
  /\ update_values [(str "b", VNum 1)] [(str "1", VNum 2)] = [VNum 2; VNum 1].
Proof. repeat split; vm_compute; reflexivity. Qed.

(* ----------------------------------------------------------------- *)
(** ** [insert] followed by [findOne] *)

Section InsertFind.

Context {conn info err : Type} {D : Driver conn info err}.

Lemma buildInsertQuery_single (t c : jsstring) (v : value) :
  is_object v = false -> buildInsertQuery t [(c, v)] = insert_sql t c.
Proof.
  intros H. unfold buildInsertQuery, insert_sql.
  rewrite flatten_single by exact H. cbn [keys map fst join].
  rewrite quote_string_column, <- !app_assoc. reflexivity.
Qed.

Lemma buildSelectQuery_single (t c : jsstring) (v : value) :
  is_object v = false -> buildSelectQuery t [(c, v)] = select_sql t c.
Proof.
  intros H. unfold buildSelectQuery, select_sql.
  rewrite truthy_buildParamString, buildParamString_keys.
  rewrite flatten_single by exact H. cbn [keys map fst join].
  rewrite <- !app_assoc. reflexivity.
Qed.

Lemma quote_storable (v : value) :
  is_object v = false -> storable (quote v false) = true.
Proof. destruct v as [|[|]|n| |s|o]; try reflexivity. discriminate. Qed.



(** [NaN] is bound as it is, kept as [NULL] and equal to nothing, so the
    row inserted with it is not found. *)
Lemma insert_findOne_nan :
  let w := Fresh.world_t [] in
  let row := [(str "a", VNaN)] in
  fst ((insert (str "t") row ;;; findOne (str "t") row) w) = inl None.
Proof. vm_compute. reflexivity. Qed.

End InsertFind.

Section ReferenceStore.
Import OneColumnStore Fresh.








End ReferenceStore.


(* ----------------------------------------------------------------- *)
(** ** Transactions *)

Section Transactions.

Context {conn info err : Type} {D : Driver conn info err}.

Lemma for_of_app {A : Type} (l1 l2 : list A) (body : A -> M conn err unit)
      (w : world conn) :
  for_of (l1 ++ l2) body w =
  match for_of l1 body w with
  | (inl _, w1) => for_of l2 body w1
  | (inr e, w1) => (inr e, w1)
  end.
Proof.
  revert w. induction l1 as [|x l1 IH]; intros w; [reflexivity|].
  cbn [app for_of]. unfold bind.
  destruct (body x w) as [[u|e] w1]; [apply IH | reflexivity].
Qed.

(** The loop stops at the first statement that throws, in the state that
    statement left. *)
Lemma for_of_throws {A : Type} (l1 l2 : list A) (x : A)
      (body : A -> M conn err unit) (w w1 w2 : world conn) (e : exn err) :
  for_of l1 body w = (inl tt, w1) ->
  body x w1 = (inr e, w2) ->
  for_of (l1 ++ x :: l2) body w = (inr e, w2).
Proof.
  intros H1 H2. rewrite for_of_app, H1. cbn [for_of]. unfold bind. now rewrite H2.
Qed.

(** When a statement of a batch throws, [atomicQuery] ends in the state
    the statements before it produced: nothing is committed and nothing
    is rolled back. *)
Lemma atomicQuery_throws (qs1 qs2 : list jsstring) (q : jsstring)
      (w w0 w1 w2 : world conn) (i : info) (e : exn err) :
  db_exec BEGIN_EXCLUSIVE w = (inl i, w0) ->
  for_of qs1 (fun q => assign_query ;;; db_exec q ;;; ret tt) w0 = (inl tt, w1) ->
  (assign_query ;;; db_exec q ;;; ret tt) w1 = (inr e, w2) ->
  atomicQuery (qs1 ++ q :: qs2) w = (inr e, w2).
Proof.
  intros H0 H1 H2. unfold atomicQuery. unfold bind at 1. rewrite H0.
  unfold bind at 1.
  erewrite for_of_throws; [reflexivity | exact H1 | exact H2].
Qed.

Lemma db_exec_globals (sql : jsstring) (w w' : world conn) (r : info + exn err) :
  db_exec sql w = (r, w') -> globals w' = globals w /\ arrays w' = arrays w.
Proof.
  unfold db_exec, bind, db_prepare, stmt_run.
  destruct (prepare (db w) sql); [intros [= _ <-]; now split|].
  destruct (run (db w) sql []) as [[x|e] c]; intros [= _ <-]; now split.
Qed.

(** Unless the global scope binds [query], a non-empty batch throws before
    its first statement runs, with the transaction open. *)
Lemma atomicQuery_unbound (q : jsstring) (qs : list jsstring)
      (w w0 : world conn) (i : info) :
  existsb (jseqb (str "query")) (globals w) = false ->
  db_exec BEGIN_EXCLUSIVE w = (inl i, w0) ->
  atomicQuery (q :: qs) w = (inr (ReferenceError (str "query")), w0).
Proof.
  intros Hg H0. unfold atomicQuery. unfold bind at 1. rewrite H0.
  pose proof H0 as Hk. apply db_exec_globals in Hk as [Hg0 _].
  cbn [for_of]. unfold bind, assign_query. now rewrite Hg0, Hg.
Qed.

End Transactions.

(** C6 fails on the code: no method ever rolls back. On the one-column
    store, a batch whose second statement is rejected leaves the first
    statement's row visible to [find], with the transaction still open so
    that a later [insert] is refused; [initTables] with a second table that
    cannot be created leaves the first table in place the same way; and
    without a global [query] the batch stops before its first statement. *)
Theorem failed_batch_is_not_undone :
  let w := Fresh.world_t [str "query"] in
  let batch := [OneColumnStore.INSERT_1; Batch.BAD] in
  let w' := snd (atomicQuery batch w) in
  let o := OneColumnStore.opened [] Fresh.columns_t in
  let o' := snd (initTables Batch.schema_tu o) in
  (fst (atomicQuery batch w) = inr (SqliteError OneColumnStore.SyntaxError)
   /\ fst (find (str "t") [] w) = inl []
   /\ fst (find (str "t") [] w') = inl [[(str "a", VNum 1)]]
   /\ OneColumnStore.in_txn (db w') = true
   /\ fst (insert (str "t") [(str "a", VNum 7)] w')
      = inr (SqliteError OneColumnStore.TransactionError))
  /\ (fst (initTables Batch.schema_tu o) = inr (SqliteError OneColumnStore.SyntaxError)
      /\ fst (find (str "t") [] o) = inr (SqliteError OneColumnStore.NoSuchTable)
      /\ fst (find (str "t") [] o') = inl []
      /\ OneColumnStore.in_txn (db o') = true)
  /\ (atomicQuery [OneColumnStore.INSERT_1; OneColumnStore.INSERT_2] (Fresh.world_t [])
      = (inr (ReferenceError (str "query")),
         with_db {| OneColumnStore.durable := Some [];
                    OneColumnStore.live := Some [];
                    OneColumnStore.in_txn := true |} (Fresh.world_t []))).
Proof. repeat split; vm_compute; reflexivity. Qed.

(* ----------------------------------------------------------------- *)
(** ** Flattened names *)

Lemma join_cons_app (sep p k : jsstring) (r : list jsstring) :
  join sep ((p ++ sep ++ k) :: r) = p ++ sep ++ join sep (k :: r).
Proof.
  destruct r as [|k2 r]; [reflexivity|].
  cbn [join]. now rewrite <- !app_assoc.
Qed.

(** Below a non-empty prefix the name is the prefix and the keys of the
    path, joined by underscores. *)
Lemma name_under_join (p : jsstring) (path : list jsstring) :
  p <> [] -> name_under (Some p) path = join (str "_") (p :: path).
Proof.
  revert p. induction path as [|k path IH]; intros p Hp; [reflexivity|].
  destruct p as [|c p]; [congruence|].
  cbn [name_under prop_name]. rewrite IH by discriminate.
  apply join_cons_app.
Qed.

Lemma name_under_top (k : jsstring) (path : list jsstring) :
  k <> [] -> name_under None (k :: path) = join (str "_") (k :: path).
Proof. intros H. cbn [name_under prop_name]. now apply name_under_join. Qed.

Lemma paths_head (obj : object) (pv : list jsstring * value) :
  In pv (paths obj) ->
  exists k rest, fst pv = k :: rest /\ In k (keys obj).
Proof.
  unfold paths. intros H. apply in_flat_map in H as (e & He & H).
  apply in_map_iff in H as (pv' & <- & _).
  exists (fst e), (fst pv'). split; [reflexivity | now apply in_map].
Qed.

Lemma named_join (obj : object) :
  Forall (fun k => k <> []) (keys obj) ->
  named None (paths obj)
  = map (fun pv => (join (str "_") (fst pv), snd pv)) (paths obj).
Proof.
  intros H. unfold named. apply map_ext_in. intros pv Hpv.
  destruct (paths_head _ _ Hpv) as (k & rest & E & Hk).
  rewrite E. rewrite name_under_top; [reflexivity|].
  rewrite Forall_forall in H. now apply H.
Qed.

(** C8 fails on the code: the test [parent ? ... : key] takes an empty
    key at the top for an absent parent, so the keys below it lose their
    prefix. The mapping [{'': {a: 1}}] flattens to [{a: 1}], not to
    [{_a: 1}], the ancestor keys joined by [_]. *)
Lemma flatten_drops_empty_prefix :
  let obj := [([], VObj [(str "a", VNum 1)])] in
  flatten obj = [(str "a", VNum 1)]
  /\ flatten obj
     <> fromEntries (map (fun pv => (join (str "_") (fst pv), snd pv)) (paths obj)).
Proof. split; vm_compute; [reflexivity | discriminate]. Qed.

(* ----------------------------------------------------------------- *)
(** ** Colliding names *)

Lemma get_prop_replace_same (k : jsstring) (v : value) (o : object) :
  has_key k o = true -> get_prop k (replace_prop k v o) = Some v.
Proof.
  unfold has_key. induction o as [|[k' v'] o IH]; simpl; [discriminate|].
  destruct (jseqb k k') eqn:E; simpl; rewrite E; [reflexivity | exact IH].
Qed.

Lemma get_prop_insert_same (i : N) (k : jsstring) (v : value) (o : object) :
  has_key k o = false -> get_prop k (insert_index i k v o) = Some v.
Proof.
  unfold has_key. induction o as [|[k' v'] o IH]; simpl.
  - now rewrite jseqb_refl.
  - destruct (jseqb k k') eqn:E; simpl; [discriminate|]. intros H.
    destruct (array_index k') as [j|]; [destruct (j <? i)%N|]; simpl;
      rewrite ?E, ?jseqb_refl; auto.
Qed.

Lemma get_prop_app_same (k : jsstring) (v : value) (o : object) :
  has_key k o = false -> get_prop k (o ++ [(k, v)]) = Some v.
Proof.
  unfold has_key. induction o as [|[k' v'] o IH]; simpl.
  - now rewrite jseqb_refl.
  - destruct (jseqb k k') eqn:E; simpl; [discriminate | exact IH].
Qed.

(** The value assigned last is the one found. *)
Lemma get_prop_set_same (o : object) (k : jsstring) (v : value) :
  get_prop k (set_prop o k v) = Some v.
Proof.
  unfold set_prop. destruct (has_key k o) eqn:H.
  - now apply get_prop_replace_same.
  - destruct (array_index k); [now apply get_prop_insert_same|].
    now apply get_prop_app_same.
Qed.

Lemma get_prop_replace_other (k k' : jsstring) (v : value) (o : object) :
  k <> k' -> get_prop k (replace_prop k' v o) = get_prop k o.
Proof.
  intros Hne. induction o as [|[k2 v2] o IH]; simpl; [reflexivity|].
  destruct (jseqb k' k2) eqn:E; simpl.
  - apply jseqb_eq in E. subst k2.
    apply jseqb_neq in Hne. now rewrite Hne.
  - now rewrite IH.
Qed.

Lemma get_prop_insert_other (i : N) (k k' : jsstring) (v : value) (o : object) :
  k <> k' -> get_prop k (insert_index i k' v o) = get_prop k o.
Proof.
  intros Hne. apply jseqb_neq in Hne.
  induction o as [|[k2 v2] o IH]; simpl; [now rewrite Hne|].
  destruct (array_index k2) as [j|]; [destruct (j <? i)%N|]; simpl;
    rewrite ?Hne, ?IH; reflexivity.
Qed.

Lemma get_prop_app_other (k k' : jsstring) (v : value) (o : object) :
  k <> k' -> get_prop k (o ++ [(k', v)]) = get_prop k o.
Proof.
  intros Hne. apply jseqb_neq in Hne.
  induction o as [|[k2 v2] o IH]; simpl; [now rewrite Hne|].
  now rewrite IH.
Qed.

Lemma get_prop_set_other (o : object) (k k' : jsstring) (v : value) :
  k <> k' -> get_prop k (set_prop o k' v) = get_prop k o.
Proof.
  intros Hne. unfold set_prop. destruct (has_key k' o).
  - now apply get_prop_replace_other.
  - destruct (array_index k'); [now apply get_prop_insert_other|].
    now apply get_prop_app_other.
Qed.

(** In a sequence of assignments the last one to a name decides its
    value. *)
Lemma get_prop_fold_put (l1 l2 : list (jsstring * value)) (e : jsstring * value)
      (res : object) :
  ~ In (fst e) (map fst l2) ->
  get_prop (fst e) (fold_left put_entry (l1 ++ e :: l2) res) = Some (snd e).
Proof.
  intros Hl2. rewrite fold_left_app. cbn [fold_left].
  generalize (fold_left put_entry l1 res). intros o.
  assert (H : get_prop (fst e) (put_entry o e) = Some (snd e))
    by apply get_prop_set_same.
  revert H. generalize (put_entry o e). clear o.
  induction l2 as [|e2 l2 IH]; intros o H; [exact H|].
  cbn [fold_left]. apply IH.
  - intros Hin. apply Hl2. now right.
  - unfold put_entry. rewrite get_prop_set_other; [exact H|].
    intros E. apply Hl2. left. now symmetry.
Qed.

Section Collisions.

Context {conn info err : Type} {D : Driver conn info err}.

(** C9: flattening is not injective, [{a: {b: 1}}] and [{a_b: 1}] flatten
    to the same mapping; of the leaves that reach the same flattened name
    (other than [__proto__]) the one visited last supplies the value; and
    two inputs with the same flattening, no leaf of which is named
    [__proto__], get the same statements, the same bound parameters and
    the same operations. *)
Theorem flatten_not_injective (t : jsstring) (o1 o2 other : object) :
  ([(str "a", VObj [(str "b", VNum 1)])] <> [(str "a_b", VNum 1)]
   /\ flatten [(str "a", VObj [(str "b", VNum 1)])] = flatten [(str "a_b", VNum 1)])
  /\ flatten [(str "a_b", VNum 1); (str "a", VObj [(str "b", VNum 2)])]
     = [(str "a_b", VNum 2)]
  /\ (forall ps1 pv ps2,
        paths o1 = ps1 ++ pv :: ps2 ->
        name_under None (fst pv) <> proto_name ->
        ~ In (name_under None (fst pv)) (map fst (named None ps2)) ->
        get_prop (name_under None (fst pv)) (flatten o1) = Some (snd pv))
  /\ (proto_free o1 -> proto_free o2 -> proto_free other ->
      flatten o1 = flatten o2 ->
      buildInsertQuery t o1 = buildInsertQuery t o2
      /\ buildSelectQuery t o1 = buildSelectQuery t o2
      /\ buildUpdateQuery t o1 other = buildUpdateQuery t o2 other
      /\ buildUpdateQuery t other o1 = buildUpdateQuery t other o2
      /\ update_values o1 other = update_values o2 other
      /\ update_values other o1 = update_values other o2
      /\ insert t o1 = insert t o2
      /\ find t o1 = find t o2
      /\ findOne t o1 = findOne t o2
      /\ update t o1 other = update t o2 other
      /\ update t other o1 = update t other o2).
Proof.
  split; [split; [discriminate | reflexivity] | split; [reflexivity | split]].
  - intros ps1 pv ps2 E _ Hlast. rewrite flatten_paths, E. unfold fromEntries.
    rewrite named_app. cbn [named map].
    exact (@get_prop_fold_put (named None ps1) (named None ps2)
             (name_under None (fst pv), snd pv) [] Hlast).
  - intros _ _ _ H.
    assert (Hp : forall j kv, buildParamString o1 j kv = buildParamString o2 j kv)
      by (intros; unfold buildParamString; now rewrite H).
    assert (Hs : buildSelectQuery t o1 = buildSelectQuery t o2)
      by (unfold buildSelectQuery; now rewrite Hp).
    assert (Hi : buildInsertQuery t o1 = buildInsertQuery t o2)
      by (unfold buildInsertQuery; now rewrite H).
    assert (Hu1 : buildUpdateQuery t o1 other = buildUpdateQuery t o2 other)
      by (unfold buildUpdateQuery; now rewrite H).
    assert (Hu2 : buildUpdateQuery t other o1 = buildUpdateQuery t other o2)
      by (unfold buildUpdateQuery; now rewrite H).
    assert (Hv1 : update_values o1 other = update_values o2 other)
      by (unfold update_values; now rewrite H).
    assert (Hv2 : update_values other o1 = update_values other o2)
      by (unfold update_values; now rewrite H).
    repeat split; try assumption.
    + unfold insert. now rewrite Hi, H.
    + unfold find. now rewrite Hs, H.
    + unfold findOne. now rewrite Hs, H.
    + unfold update. now rewrite Hu1, Hv1.
    + unfold update. now rewrite Hu2, Hv2.
Qed.

End Collisions.

Lemma flatten_not_injective_witness :
  let o1 := [(str "a", VObj [(str "b", VNum 1)])] in
  let o2 := [(str "a_b", VNum 1)] in
  proto_free o1 /\ proto_free o2
  /\ flatten o1 = flatten o2
  /\ buildInsertQuery (str "t") o1 = buildInsertQuery (str "t") o2
  /\ insert (D := OneColumnStore.driver) (str "t") o1 = insert (str "t") o2.
Proof.
  assert (H1 : proto_free [(str "a", VObj [(str "b", VNum 1)])])
    by (constructor; [discriminate | constructor]).
  assert (H2 : proto_free [(str "a_b", VNum 1)])
    by (constructor; [discriminate | constructor]).
  assert (H : flatten [(str "a", VObj [(str "b", VNum 1)])]
              = flatten [(str "a_b", VNum 1)]) by reflexivity.
  pose proof (proj2 (proj2 (proj2
    (@flatten_not_injective _ _ _ OneColumnStore.driver (str "t")
       [(str "a", VObj [(str "b", VNum 1)])] [(str "a_b", VNum 1)] [])))
    H1 H2 (Forall_nil _) H) as P.
  split; [exact H1 | split; [exact H2 | split; [exact H | split; [exact (proj1 P) |]]]].
  exact (proj1 (proj2 (proj2 (proj2 (proj2 (proj2 (proj2 P))))))).
Defined.

(* ----------------------------------------------------------------- *)
(** ** [initTables] writes to the caller's descriptor *)

Lemma store_at_length {A : Type} (i : nat) (x : A) (l : list A) :
  List.length (store_at i x l) = List.length l.
Proof.
  revert i. induction l as [|y l IH]; intros [|i]; simpl; auto.
Qed.

Lemma nth_error_store_at_same {A : Type} (i : nat) (x : A) (l : list A) :
  (i < List.length l)%nat -> nth_error (store_at i x l) i = Some x.
Proof.
  revert i. induction l as [|y l IH]; intros [|i] H; simpl in *; try lia.
  - reflexivity.
  - apply IH. lia.
Qed.

Lemma nth_error_store_at_other {A : Type} (i j : nat) (x : A) (l : list A) :
  i <> j -> nth_error (store_at i x l) j = nth_error l j.
Proof.
  revert i j. induction l as [|y l IH]; intros [|i] [|j] H; simpl;
    try reflexivity; try congruence.
  apply IH. congruence.
Qed.

Lemma quote_at_app (l1 l2 : list nat) (a : list column) :
  quote_at (l1 ++ l2) a = quote_at l2 (quote_at l1 a).
Proof. apply fold_left_app. Qed.

Lemma quote_at_length (ls : list nat) (a : list column) :
  List.length (quote_at ls a) = List.length a.
Proof.
  revert a. induction ls as [|l ls IH]; intros a; [reflexivity|].
  cbn [quote_at fold_left]. fold (quote_at ls). rewrite IH.
  destruct (nth_error a l); [apply store_at_length | reflexivity].
Qed.

Lemma nth_error_quote_at_other (ls : list nat) (a : list column) (l : nat) :
  ~ In l ls -> nth_error (quote_at ls a) l = nth_error a l.
Proof.
  revert a. induction ls as [|l0 ls IH]; intros a H; [reflexivity|].
  cbn [quote_at fold_left]. fold (quote_at ls). rewrite IH by (intros ?; apply H; now right).
  destruct (nth_error a l0); [|reflexivity].
  apply nth_error_store_at_other. intros ->. apply H. now left.
Qed.

Lemma nth_error_quote_at_in (ls : list nat) (a : list column) (l : nat) :
  NoDup ls -> In l ls ->
  nth_error (quote_at ls a) l = option_map quoted_column (nth_error a l).
Proof.
  intros Hnd. revert a.
  induction Hnd as [|l0 ls Hl0 Hnd IH]; intros a Hin; [destruct Hin|].
  destruct Hin as [->|Hin].
  - cbn [quote_at fold_left]. fold (quote_at ls).
    rewrite nth_error_quote_at_other by exact Hl0.
    destruct (nth_error a l) as [c|] eqn:E; [|now rewrite E].
    apply nth_error_store_at_same. apply nth_error_Some. congruence.
  - cbn [quote_at fold_left]. fold (quote_at ls). rewrite IH by exact Hin.
    destruct (nth_error a l0); [|reflexivity].
    rewrite nth_error_store_at_other; [reflexivity|].
    intros ->. contradiction.
Qed.

Section InitTables.

Context {conn info err : Type} {D : Driver conn info err}.

Lemma db_exec_arrays (sql : jsstring) (w w' : world conn) (r : info + exn err) :
  db_exec sql w = (r, w') -> arrays w' = arrays w.
Proof. intros H. now apply db_exec_globals in H. Qed.

Lemma quote_column_inv (l : nat) (w w' : world conn) (r : jsstring) :
  quote_column (err := err) l w = (inl r, w') ->
  exists c, nth_error (arrays w) l = Some c
            /\ r = column_text (quoted_column c)
            /\ w' = with_arrays (quote_at [l] (arrays w)) w.
Proof.
  unfold quote_column, quote_at. cbn [fold_left].
  destruct (nth_error (arrays w) l) as [c|]; [|discriminate].
  intros [= <- <-]. now exists c.
Qed.

Lemma with_arrays_twice (a b : list column) (w : world conn) :
  with_arrays a (with_arrays b w) = with_arrays a w.
Proof. reflexivity. Qed.

(** The callback run over the columns of a table writes to each of them
    in turn. *)
Lemma map_m_quote_column_arrays (ls : list nat) (w w' : world conn)
      (r : list jsstring) :
  map_m (quote_column (err := err)) ls w = (inl r, w') ->
  w' = with_arrays (quote_at ls (arrays w)) w.
Proof.
  revert w r. induction ls as [|l ls IH]; intros w r.
  - intros [= _ <-]. now destruct w.
  - cbn [map_m]. unfold bind at 1.
    destruct (quote_column l w) as [[x|e] w1] eqn:E1; [|discriminate].
    apply quote_column_inv in E1 as (c & Hc & -> & ->).
    unfold bind at 1.
    destruct (map_m quote_column ls _) as [[xs|e] w2] eqn:E2; [|discriminate].
    intros [= _ <-]. apply IH in E2. rewrite E2.
    cbn [arrays with_arrays]. rewrite with_arrays_twice.
    change (l :: ls) with ([l] ++ ls). now rewrite quote_at_app.
Qed.

(** On distinct references that are all in the store, the callback
    returns the text of each column with its name quoted once more. *)
Lemma map_m_quote_column_run (ls : list nat) (cs : list column) (w : world conn) :
  NoDup ls ->
  Forall2 (fun l c => nth_error (arrays w) l = Some c) ls cs ->
  map_m (quote_column (err := err)) ls w
  = (inl (map (fun c => column_text (quoted_column c)) cs),
     with_arrays (quote_at ls (arrays w)) w).
Proof.
  intros Hnd. revert cs w. induction Hnd as [|l ls Hl Hnd IH]; intros cs w Hcs.
  - inversion Hcs. subst. cbn. now destruct w.
  - inversion Hcs as [|? c ? cs' Hc Hcs']. subst.
    cbn [map_m]. unfold bind at 1. unfold quote_column at 1. rewrite Hc.
    unfold bind at 1. rewrite (IH cs').
    + cbn [ret map arrays with_arrays]. rewrite with_arrays_twice.
      cbn [quote_at fold_left]. now rewrite Hc.
    + cbn [arrays with_arrays].
      clear - Hl Hcs'. induction Hcs' as [|l' c' ls cs' H _ IH']; constructor.
      * rewrite nth_error_store_at_other; [exact H|].
        intros ->. apply Hl. now left.
      * apply IH'. intros Hin. apply Hl. now right.
Qed.

Lemma table_sql_arrays (t : table) (w w' : world conn) (sql : jsstring) :
  table_sql (err := err) t w = (inl sql, w') ->
  w' = with_arrays (quote_at (columns t) (arrays w)) w.
Proof.
  unfold table_sql, bind.
  destruct (map_m quote_column (columns t) w) as [[xs|e] w1] eqn:E; [|discriminate].
  intros [= _ <-]. now apply map_m_quote_column_arrays in E.
Qed.

Lemma for_of_tables_arrays (s : schema) (w w' : world conn) :
  for_of s (fun t => sql <- table_sql t ;; db_exec sql ;;; ret tt) w = (inl tt, w') ->
  arrays w' = quote_at (refs s) (arrays w).
Proof.
  revert w. induction s as [|t s IH]; intros w.
  - intros [= <-]. reflexivity.
  - cbn [for_of]. unfold bind at 1. unfold bind at 1.
    destruct (table_sql t w) as [[sql|e] w1] eqn:E1; [|discriminate].
    unfold bind at 1.
    destruct (db_exec sql w1) as [[i|e] w2] eqn:E2; [|discriminate].
    cbn [ret]. intros H. apply IH in H. rewrite H.
    apply db_exec_arrays in E2. apply table_sql_arrays in E1.
    rewrite E2, E1. cbn [arrays with_arrays].
    unfold refs. cbn [flat_map]. now rewrite quote_at_app.
Qed.

(** When [initTables] returns, the store of arrays is the one the writes
    to the descriptor's columns produce. *)
Lemma initTables_arrays (s : schema) (w w' : world conn) :
  initTables s w = (inl tt, w') ->
  arrays w' = quote_at (refs s) (arrays w).
Proof.
  unfold initTables. unfold bind at 1.
  destruct (db_exec BEGIN_EXCLUSIVE w) as [[i|e] w0] eqn:E0; [|discriminate].
  unfold bind at 1.
  destruct (for_of s _ w0) as [[[]|e] w1] eqn:E1; [|discriminate].
  unfold bind at 1.
  destruct (db_exec COMMIT w1) as [[j|e] w2] eqn:E2; [|discriminate].
  intros [= <-].
  apply db_exec_arrays in E0, E2. apply for_of_tables_arrays in E1.
  now rewrite E2, E1, E0.
Qed.

End InitTables.

Section InitTablesTwice.

Context {conn info err : Type} {D : Driver conn info err}.

Lemma map_m_quote_column_valid (ls : list nat) (w w' : world conn)
      (r : list jsstring) :
  map_m (quote_column (err := err)) ls w = (inl r, w') ->
  Forall (fun l => (l < List.length (arrays w))%nat) ls.
Proof.
  revert w w' r. induction ls as [|l ls IH]; intros w w' r; [constructor|].
  cbn [map_m]. unfold bind at 1.
  destruct (quote_column l w) as [[x|e] w1] eqn:E1; [|discriminate].
  apply quote_column_inv in E1 as (c & Hc & -> & ->).
  unfold bind at 1.
  destruct (map_m quote_column ls _) as [[xs|e] w2] eqn:E2; [|discriminate].
  intros _. apply IH in E2. cbn [arrays with_arrays] in E2.
  rewrite quote_at_length in E2. constructor; [|exact E2].
  apply nth_error_Some. congruence.
Qed.

Lemma for_of_tables_valid (s : schema) (w w' : world conn) :
  for_of s (fun t => sql <- table_sql t ;; db_exec sql ;;; ret tt) w = (inl tt, w') ->
  Forall (fun l => (l < List.length (arrays w))%nat) (refs s).
Proof.
  revert w w'. induction s as [|t s IH]; intros w w'; [constructor|].
  cbn [for_of]. unfold bind at 1. unfold bind at 1.
  destruct (table_sql t w) as [[sql|e] w1] eqn:E1; [|discriminate].
  unfold bind at 1.
  destruct (db_exec sql w1) as [[i|e] w2] eqn:E2; [|discriminate].
  cbn [ret]. intros H. apply IH in H.
  apply db_exec_arrays in E2. pose proof (table_sql_arrays _ _ E1) as E1'.
  rewrite E2, E1' in H. cbn [arrays with_arrays] in H.
  rewrite quote_at_length in H.
  unfold refs. cbn [flat_map]. apply Forall_app. split; [|exact H].
  unfold table_sql, bind in E1.
  destruct (map_m quote_column (columns t) w) as [[xs|e] w3] eqn:E3; [|discriminate].
  now apply map_m_quote_column_valid in E3.
Qed.

Lemma initTables_valid (s : schema) (w w' : world conn) :
  initTables s w = (inl tt, w') ->
  Forall (fun l => (l < List.length (arrays w))%nat) (refs s).
Proof.
  unfold initTables. unfold bind at 1.
  destruct (db_exec BEGIN_EXCLUSIVE w) as [[i|e] w0] eqn:E0; [|discriminate].
  unfold bind at 1.
  destruct (for_of s _ w0) as [[[]|e] w1] eqn:E1; [|discriminate].
  intros _. apply db_exec_arrays in E0. apply for_of_tables_valid in E1.
  now rewrite E0 in E1.
Qed.

Lemma NoDup_refs_table (s : schema) (t : table) :
  NoDup (refs s) -> In t s -> NoDup (columns t).
Proof.
  intros H Hin. apply in_split in Hin as (s1 & s2 & ->).
  unfold refs in H. rewrite flat_map_app in H. cbn [flat_map] in H.
  apply NoDup_app_remove_l in H. now apply NoDup_app_remove_r in H.
Qed.

Lemma Forall2_choice {A B : Type} (P : A -> B -> Prop) (l : list A) :
  (forall x, In x l -> exists y, P x y) -> exists l', Forall2 P l l'.
Proof.
  induction l as [|x l IH]; intros H; [exists []; constructor|].
  destruct (H x (or_introl eq_refl)) as (y & Hy).
  destruct IH as (l' & Hl'); [intros z Hz; apply H; now right|].
  exists (y :: l'). now constructor.
Qed.

(** C10 (amended): for a descriptor whose column arrays are distinct
    objects, when [initTables] returns, each column array of the
    descriptor holds its name in double quotes, whatever it was, and the
    other arrays are as before; so the statement built from the same
    descriptor again has the names quoted twice. *)
Theorem initTables_quotes_in_place (s : schema) (w w' : world conn) :
  NoDup (refs s) ->
  initTables s w = (inl tt, w') ->
  (forall l, In l (refs s) ->
     exists c, nth_error (arrays w) l = Some c
               /\ nth_error (arrays w') l
                  = Some {| col_name := dquote ++ col_name c ++ dquote;
                            col_rest := col_rest c |})
  /\ (forall l, ~ In l (refs s) -> nth_error (arrays w') l = nth_error (arrays w) l)
  /\ (forall (t : table) (w2 : world conn),
        In t s ->
        (forall l, In l (columns t) -> nth_error (arrays w2) l = nth_error (arrays w') l) ->
        exists cs,
          Forall2 (fun l c => nth_error (arrays w) l = Some c) (columns t) cs
          /\ fst (table_sql (err := err) t w2)
             = inl (create_table_sql (tableName t)
                      (join (str ", ")
                         (map (fun c =>
                                 join (str " ")
                                   ((dquote ++ (dquote ++ col_name c ++ dquote) ++ dquote)
                                      :: col_rest c)) cs)))).
Proof.
  intros Hnd Hrun.
  pose proof (initTables_arrays _ _ Hrun) as Harr.
  pose proof (initTables_valid _ _ Hrun) as Hvalid.
  rewrite Forall_forall in Hvalid.
  assert (H1 : forall l, In l (refs s) ->
     exists c, nth_error (arrays w) l = Some c
               /\ nth_error (arrays w') l = Some (quoted_column c)).
  { intros l Hl. destruct (nth_error (arrays w) l) as [c|] eqn:E.
    - exists c. split; [reflexivity|].
      rewrite Harr, nth_error_quote_at_in, E by assumption. reflexivity.
    - exfalso. apply nth_error_None in E. specialize (Hvalid l Hl). lia. }
  split; [exact H1 | split].
  - intros l Hl. rewrite Harr. now apply nth_error_quote_at_other.
  - intros t w2 Ht Hw2.
    assert (Hsub : forall l, In l (columns t) -> In l (refs s)).
    { intros l Hl. unfold refs. apply in_flat_map. now exists t. }
    destruct (@Forall2_choice _ _
                (fun l c => nth_error (arrays w) l = Some c
                            /\ nth_error (arrays w') l = Some (quoted_column c))
                (columns t)) as (cs & Hcs).
    { intros l Hl. apply H1. now apply Hsub. }
    exists cs. split.
    + clear - Hcs. induction Hcs; constructor; tauto.
    + unfold table_sql, bind.
      rewrite map_m_quote_column_run with (cs := map quoted_column cs).
      * cbn [fst ret]. rewrite map_map. reflexivity.
      * exact (NoDup_refs_table _ _ Hnd Ht).
      * assert (Hin : forall l, In l (columns t) ->
                        nth_error (arrays w2) l = nth_error (arrays w') l) by exact Hw2.
        clear - Hcs Hin. induction Hcs as [|l c ls cs [_ Hc] _ IH]; cbn [map]; constructor.
        -- rewrite Hin by now left. exact Hc.
        -- apply IH. intros l' Hl'. apply Hin. now right.
Qed.

End InitTablesTwice.

Lemma initTables_quotes_in_place_witness :
  let s := Fresh.schema_t in
  let w := OneColumnStore.opened [] Fresh.columns_t in
  let w' := Fresh.world_t [] in
  NoDup (refs s)
  /\ initTables s w = (inl tt, w')
  /\ (forall l, In l (refs s) ->
        exists c, nth_error (arrays w) l = Some c
                  /\ nth_error (arrays w') l
                     = Some {| col_name := dquote ++ col_name c ++ dquote;
                               col_rest := col_rest c |}).
Proof.
  assert (Hnd : NoDup (refs Fresh.schema_t))
    by (repeat constructor; intros []).
  assert (Hrun : initTables Fresh.schema_t (OneColumnStore.opened [] Fresh.columns_t)
                 = (inl tt, Fresh.world_t [])) by reflexivity.
  split; [exact Hnd | split; [exact Hrun |]].
  exact (proj1 (@initTables_quotes_in_place _ _ _ _ _ _ _ Hnd Hrun)).
Defined.

(** C10, as stated, fails: a column array that the descriptor lists twice
    is written to twice by one call, so its name is not in its
    double-quoted form afterwards but quoted twice. *)
Lemma initTables_shared_array_quoted_twice :
  let w := Recorder.opened Recorder.shared_columns in
  fst (initTables Recorder.shared_schema w) = inl tt
  /\ arrays (snd (initTables Recorder.shared_schema w))
     = [{| col_name := dquote ++ (dquote ++ str "id" ++ dquote) ++ dquote;
           col_rest := [str "INTEGER"] |}]
  /\ arrays (snd (initTables Recorder.shared_schema w))
     <> [{| col_name := dquote ++ str "id" ++ dquote;
            col_rest := [str "INTEGER"] |}].
Proof.
  split; [reflexivity | split; [reflexivity | vm_compute; discriminate]].
Qed.

(** On the one-column store the second initialisation with the same
    descriptor is refused: the column is now spelled [""a""]. *)
Lemma initTables_twice_on_store :
  let w' := Fresh.world_t [] in
  fst (table_sql (err := OneColumnStore.err) (hd {| tableName := []; columns := [] |}
                                             Fresh.schema_t) w')
  = inl (str "CREATE TABLE IF NOT EXISTS " ++ dquote ++ str "t" ++ dquote ++ str " ("
           ++ dquote ++ dquote ++ str "a" ++ dquote ++ dquote ++ str ");")
  /\ fst (initTables Fresh.schema_t w') = inr (SqliteError OneColumnStore.SyntaxError).
Proof. split; reflexivity. Qed.

(* ----------------------------------------------------------------- *)
(** ** Worked examples *)

Example escape_example : escape (str "it's 5%") = str "it%27s%205%25".
Proof. reflexivity. Qed.

Example unescape_example : unescape (str "%u0041%41%4g%") = str "AA%4g%".
Proof. reflexivity. Qed.

(** Array indices are enumerated first, whatever the order of creation. *)
Example property_order_example :
  keys (fromEntries [(str "b", VNull); (str "2", VNull); (str "01", VNull);
                     (str "1", VNull)])
  = [str "1"; str "2"; str "b"; str "01"].
Proof. reflexivity. Qed.

Example flatten_example :
  flatten [(str "meta", VObj [(str "age", VNum 5)])] = [(str "meta_age", VNum 5)].
Proof. reflexivity. Qed.

Example buildInsertQuery_example :
  buildInsertQuery (str "table") [(str "a", VNum 1); (str "b", VStr (str "x"))]
  = str "INSERT INTO " ++ dquote ++ str "table" ++ dquote ++ str " ("
      ++ dquote ++ str "a" ++ dquote ++ str ", " ++ dquote ++ str "b" ++ dquote
      ++ str ") VALUES (?, ?);".
Proof. reflexivity. Qed.

(** Booleans are stored, and found again, as 1 and 0. *)
Example boolean_round_trip :
  let row := [(str "a", VBool true)] in
  fst ((insert (str "t") row ;;; find (str "t") row) (Fresh.world_t []))
  = inl [[(str "a", VNum 1)]].
Proof. reflexivity. Qed.

(* ================================================================= *)
(** * Further properties of the class *)

(* ----------------------------------------------------------------- *)
(** ** What a quoted literal is made of *)

Section LiteralText.
Local Open Scope N_scope.

Lemma hexdigit_unescaped (d : N) : d < 16 -> unescaped (hexdigit d) = true.
Proof.
  intros H. rewrite <- (N2Nat.id d).
  assert (Hn : (N.to_nat d < 16)%nat) by lia.
  destruct (N.to_nat d) as [|n]; [reflexivity|].
  do 15 (destruct n as [|n]; [reflexivity|]). lia.
Qed.

Lemma escape_unit_safe (c : N) :
  Forall (fun x => unescaped x = true \/ x = percent) (escape_unit c).
Proof.
  assert (Hm : forall x, x mod 16 < 16) by (intros; apply N.mod_lt; lia).
  unfold escape_unit. destruct (unescaped c) eqn:Hu.
  - apply Forall_cons; [now left | apply Forall_nil].
  - destruct (N.ltb_spec c 256) as [Hlt|Hge].
    + destruct (byte_digits Hlt) as (H1 & H2 & _).
      apply Forall_cons; [now right|].
      repeat (apply Forall_cons; [left; now apply hexdigit_unescaped|]).
      apply Forall_nil.
    + apply Forall_cons; [now right|].
      apply Forall_cons; [now left|].
      repeat (apply Forall_cons; [left; now apply hexdigit_unescaped|]).
      apply Forall_nil.
Qed.

Lemma escape_safe (s : jsstring) :
  Forall (fun x => unescaped x = true \/ x = percent) (escape s).
Proof.
  unfold escape. induction s as [|c s IH]; [constructor|].
  cbn [flat_map]. apply Forall_app. split; [apply escape_unit_safe | exact IH].
Qed.

End LiteralText.

(** X1: a string quoted in literal mode consists of letters, digits, the
    characters [@*_+-./] and [%] only; in particular it holds no single
    quote, no double quote, no semicolon and no blank. *)
Theorem quote_literal_is_plain (s : jsstring) :
  exists t,
    quote (VStr s) false = VStr t
    /\ Forall (fun x => unescaped x = true \/ x = percent) t
    /\ ~ In 39%N t /\ ~ In 34%N t /\ ~ In 59%N t /\ ~ In 32%N t.
Proof.
  exists (escape s). cbn [quote]. rewrite quote_string_literal.
  pose proof (escape_safe s) as H. rewrite Forall_forall in H.
  split; [reflexivity | split; [now apply Forall_forall|]].
  repeat split; intros Hin; apply H in Hin as [Hin|Hin];
    vm_compute in Hin; discriminate.
Qed.

(* ----------------------------------------------------------------- *)
(** ** Values that are quoted alike *)

Lemma quote_as_stored (v : value) : quote v false = quote (stored v) false.
Proof. destruct v as [|[|]|n| |s|o]; reflexivity. Qed.

Lemma stored_storable (v : value) : is_object v = false -> storable (stored v) = true.
Proof. destruct v as [|[|]|n| |s|o]; try reflexivity. discriminate. Qed.

Lemma stored_code_units (v : value) (s : jsstring) :
  (forall r, v = VStr r -> code_units r) -> stored v = VStr s -> code_units s.
Proof.
  intros Hv. destruct v as [|[|]|n| |r|o]; cbn [stored]; try discriminate.
  - intros [= <-]. unfold code_units. repeat (constructor; [reflexivity|]). constructor.
  - intros [= <-]. now apply Hv.
Qed.

Lemma quote_storable_inj (a b : value) :
  storable a = true -> storable b = true ->
  (forall s, a = VStr s -> code_units s) ->
  (forall s, b = VStr s -> code_units s) ->
  quote a false = quote b false -> a = b.
Proof.
  intros Ha Hb Hwa Hwb.
  destruct a as [|?|n| |s|?]; try discriminate;
    destruct b as [|?|m| |r|?]; try discriminate; cbn [quote]; try congruence.
  rewrite !quote_string_literal. intros [= E]. f_equal.
  rewrite <- (unescape_escape (Hwa s eq_refl)), <- (unescape_escape (Hwb r eq_refl)).
  now rewrite E.
Qed.

Section QuotedAlike.

Context {conn info err : Type} {D : Driver conn info err}.

(** X2: two scalar values are quoted to the same literal exactly when
    they are stored alike: a string only as itself, a number only as
    itself, but [true] as 1, [false] as 0 and [null] as the string [null].
    Rows that differ only in such values are inserted, and used as a
    filter, in the same way. *)
Theorem quote_literal_collisions (v1 v2 : value) (t c : jsstring) :
  is_object v1 = false ->
  is_object v2 = false ->
  (forall s, v1 = VStr s \/ v2 = VStr s -> code_units s) ->
  (quote v1 false = quote v2 false <-> stored v1 = stored v2)
  /\ (stored v1 = stored v2 ->
      insert t [(c, v1)] = insert t [(c, v2)]
      /\ find t [(c, v1)] = find t [(c, v2)]
      /\ findOne t [(c, v1)] = findOne t [(c, v2)]).
Proof.
  intros H1 H2 Hw.
  assert (Hq : stored v1 = stored v2 -> quote v1 false = quote v2 false).
  { intros E. now rewrite (quote_as_stored v1), (quote_as_stored v2), E. }
  split; [split; [|exact Hq]|].
  - rewrite (quote_as_stored v1), (quote_as_stored v2).
    apply quote_storable_inj; try (now apply stored_storable).
    + intros s. apply stored_code_units. intros r ->. apply Hw. now left.
    + intros s. apply stored_code_units. intros r ->. apply Hw. now right.
  - intros E. specialize (Hq E).
    assert (Hi : buildInsertQuery t [(c, v1)] = buildInsertQuery t [(c, v2)])
      by now rewrite !buildInsertQuery_single.
    assert (Hs : buildSelectQuery t [(c, v1)] = buildSelectQuery t [(c, v2)])
      by now rewrite !buildSelectQuery_single.
    assert (Hv : quoteAll (values (flatten [(c, v1)])) false
                 = quoteAll (values (flatten [(c, v2)])) false).
    { rewrite !flatten_single by assumption. cbn [values map snd quoteAll].
      now rewrite Hq. }
    repeat split.
    + unfold insert. cbv zeta. now rewrite Hi, Hv.
    + unfold find. cbv zeta. now rewrite Hs, Hv.
    + unfold findOne. cbv zeta. now rewrite Hs, Hv.
Qed.

End QuotedAlike.

Lemma quote_literal_collisions_witness :
  let v1 := VNull in
  let v2 := VStr (str "null") in
  is_object v1 = false /\ is_object v2 = false
  /\ quote v1 false = quote v2 false
  /\ insert (D := OneColumnStore.driver) (str "t") [(str "a", v1)]
     = insert (str "t") [(str "a", v2)].
Proof.
  assert (Hw : forall s, VNull = VStr s \/ VStr (str "null") = VStr s -> code_units s).
  { intros s [E|E]; [discriminate|]. injection E as <-.
    unfold code_units. code_units_tac. }
  pose proof (@quote_literal_collisions _ _ _ OneColumnStore.driver
                VNull (VStr (str "null")) (str "t") (str "a")
                eq_refl eq_refl Hw) as [Hiff Hops].
  split; [reflexivity | split; [reflexivity | split]].
  - apply Hiff. reflexivity.
  - apply Hops. reflexivity.
Defined.

(* ----------------------------------------------------------------- *)
(** ** What is bound, and what the statements depend on *)

(** X3: whatever the mappings, the parameters [insert], [find], [findOne]
    and [update] bind are strings and numbers only: never a boolean, never
    [null], never an object. *)
Theorem bound_values_are_storable (params valueParams whereParams : object) :
  Forall (fun v => storable v = true) (quoteAll (values (flatten params)) false)
  /\ Forall (fun v => storable v = true) (update_values valueParams whereParams).
Proof.
  assert (H : forall o, Forall (fun v => storable v = true)
                          (quoteAll (values (flatten o)) false)).
  { intros o. unfold quoteAll, values. rewrite map_map.
    apply Forall_map. pose proof (flatten_flat o) as Hf.
    unfold flat in Hf. apply Forall_impl with (2 := Hf).
    intros e He. cbv beta. now apply quote_storable. }
  split; [apply H | unfold update_values; apply H].
Qed.

Lemma map_const_repeat {A B : Type} (b : B) (l : list A) :
  map (fun _ => b) l = repeat b (List.length l).
Proof. induction l as [|x l IH]; [reflexivity|]. cbn. now rewrite IH. Qed.

(** X4: the insert statement names the flattened keys, each in double
    quotes, and has exactly as many placeholders as [insert] binds
    parameters. *)
Theorem buildInsertQuery_shape (t : jsstring) (params : object) :
  buildInsertQuery t params
  = str "INSERT INTO " ++ dquote ++ t ++ dquote ++ str " ("
      ++ join (str ", ") (map (fun k => dquote ++ k ++ dquote) (keys (flatten params)))
      ++ str ") VALUES ("
      ++ join (str ", ")
           (repeat (str "?")
              (List.length (quoteAll (values (flatten params)) false)))
      ++ str ");".
Proof.
  unfold buildInsertQuery. cbv zeta. rewrite map_const_repeat.
  unfold quoteAll, values, keys. rewrite !length_map. reflexivity.
Qed.

(** X5: the statements are built from the flattened keys alone: mappings
    with the same flattened keys, whatever their values, give the same
    insert, select and update statements. *)
Theorem statements_depend_on_keys (t : jsstring) (p1 p2 f1 f2 : object) :
  keys (flatten p1) = keys (flatten p2) ->
  keys (flatten f1) = keys (flatten f2) ->
  buildInsertQuery t p1 = buildInsertQuery t p2
  /\ buildSelectQuery t p1 = buildSelectQuery t p2
  /\ buildUpdateQuery t p1 f1 = buildUpdateQuery t p2 f2.
Proof.
  intros Hp Hf.
  assert (Hps : forall a b j kv, keys (flatten a) = keys (flatten b) ->
                  buildParamString a j kv = buildParamString b j kv).
  { intros a b j kv E. now rewrite !buildParamString_keys, E. }
  repeat split.
  - unfold buildInsertQuery. cbv zeta. now rewrite Hp.
  - unfold buildSelectQuery. cbv zeta. now rewrite (Hps p1 p2 _ _ Hp).
  - unfold buildUpdateQuery. cbv zeta. rewrite !buildParamString_flatten.
    now rewrite (Hps p1 p2 _ _ Hp), (Hps f1 f2 _ _ Hf).
Qed.

Lemma statements_depend_on_keys_witness :
  let p1 := [(str "a", VNum 1); (str "m", VObj [(str "x", VNull)])] in
  let p2 := [(str "a", VStr (str "z")); (str "m_x", VBool true)] in
  keys (flatten p1) = keys (flatten p2)
  /\ buildInsertQuery (str "t") p1 = buildInsertQuery (str "t") p2
  /\ buildUpdateQuery (str "t") p1 p2 = buildUpdateQuery (str "t") p2 p1.
Proof.
  assert (H : keys (flatten [(str "a", VNum 1); (str "m", VObj [(str "x", VNull)])])
              = keys (flatten [(str "a", VStr (str "z")); (str "m_x", VBool true)]))
    by reflexivity.
  split; [exact H | split].
  - exact (proj1 (statements_depend_on_keys (str "t") _ _ _ _ H (eq_sym H))).
  - exact (proj2 (proj2 (statements_depend_on_keys (str "t") _ _ _ _ H (eq_sym H)))).
Defined.

(* ----------------------------------------------------------------- *)
(** ** Errors of the connection *)

Section ConnectionErrors.

Context {conn info err : Type} {D : Driver conn info err}.

(** X6: a statement the connection refuses to prepare makes the operation
    throw that error before anything is run: the state is the one the
    operation started in, no transaction has been opened. *)
Theorem prepare_failure_touches_nothing (t : jsstring) (params valueParams whereParams : object)
      (w : world conn) (e : err) :
  (prepare (db w) (buildInsertQuery t params) = Some e ->
   insert t params w = (inr (SqliteError e), w))
  /\ (prepare (db w) (buildSelectQuery t params) = Some e ->
      find t params w = (inr (SqliteError e), w)
      /\ findOne t params w = (inr (SqliteError e), w))
  /\ (prepare (db w) (buildUpdateQuery t valueParams whereParams) = Some e ->
      update t valueParams whereParams w = (inr (SqliteError e), w)).
Proof.
  split; [|split]; intros H; [|split|].
  - unfold insert, bind, db_prepare. cbv zeta. now rewrite H.
  - unfold find, bind, db_prepare. cbv zeta. now rewrite H.
  - unfold findOne, bind, db_prepare. cbv zeta. now rewrite H.
  - unfold update, bind, db_prepare. cbv zeta. now rewrite H.
Qed.

(** X7: when the statement itself throws, [insert] and [update] throw the
    same error and stop: the state is the one the failed statement left
    inside the transaction [BEGIN] opened, which is neither committed nor
    rolled back. *)
Theorem run_failure_leaves_transaction_open (t : jsstring)
      (params valueParams whereParams : object)
      (w w0 w1 : world conn) (i : info) (e : exn err) :
  db_exec BEGIN w = (inl i, w0) ->
  (prepare (db w) (buildInsertQuery t params) = None ->
   stmt_run (buildInsertQuery t params) (quoteAll (values (flatten params)) false) w0
   = (inr e, w1) ->
   insert t params w = (inr e, w1))
  /\ (prepare (db w) (buildUpdateQuery t valueParams whereParams) = None ->
      stmt_run (buildUpdateQuery t valueParams whereParams)
        (update_values valueParams whereParams) w0 = (inr e, w1) ->
      update t valueParams whereParams w = (inr e, w1)).
Proof.
  intros Hb. split; intros Hp Hr.
  - unfold insert. cbv zeta. unfold bind at 1. unfold db_prepare. rewrite Hp.
    unfold bind at 1. rewrite Hb. unfold bind at 1. now rewrite Hr.
  - unfold update. cbv zeta. unfold bind at 1. unfold db_prepare. rewrite Hp.
    unfold bind at 1. rewrite Hb. unfold bind at 1. now rewrite Hr.
Qed.

(** X8: when no row matches, [findOne] returns [undefined] and [find] the
    empty list; neither throws, and the state is unchanged. *)
Theorem nothing_found (t : jsstring) (params : object) (w : world conn) :
  prepare (db w) (buildSelectQuery t params) = None ->
  (get (db w) (buildSelectQuery t params) (quoteAll (values (flatten params)) false)
   = inl None ->
   findOne t params w = (inl None, w))
  /\ (all (db w) (buildSelectQuery t params) (quoteAll (values (flatten params)) false)
      = inl [] ->
      find t params w = (inl [], w)).
Proof.
  intros Hp. split; intros H.
  - unfold findOne, bind, db_prepare, stmt_get. cbv zeta. now rewrite Hp, H.
  - unfold find, bind, db_prepare, stmt_all. cbv zeta. now rewrite Hp, H.
Qed.

End ConnectionErrors.

Lemma prepare_failure_touches_nothing_witness :
  let w := Fresh.world_t [] in
  let row := [(str "a", VNum 1)] in
  prepare (db w) (buildInsertQuery (str "nope") row) = Some OneColumnStore.SyntaxError
  /\ insert (str "nope") row w = (inr (SqliteError OneColumnStore.SyntaxError), w).
Proof.
  assert (H : prepare (db (Fresh.world_t []))
                (buildInsertQuery (str "nope") [(str "a", VNum 1)])
              = Some OneColumnStore.SyntaxError) by reflexivity.
  split; [exact H|].
  exact (proj1 (@prepare_failure_touches_nothing _ _ _ OneColumnStore.driver
                  (str "nope") [(str "a", VNum 1)] [] [] (Fresh.world_t [])
                  OneColumnStore.SyntaxError) H).
Defined.

Lemma run_failure_leaves_transaction_open_witness :
  let w := Fresh.world_t [] in
  let v := [(str "a", VNum 1)] in
  let f := [(str "a", VNum 2)] in
  exists w1 : world OneColumnStore.conn,
    update (str "t") v f w = (inr (SqliteError OneColumnStore.BindError), w1)
    /\ OneColumnStore.in_txn (db w1) = true.
Proof.
  eexists. split.
  - apply (proj2 (@run_failure_leaves_transaction_open _ _ _ OneColumnStore.driver
                    (str "t") [] [(str "a", VNum 1)] [(str "a", VNum 2)]
                    (Fresh.world_t [])
                    (with_db {| OneColumnStore.durable := Some [];
                                OneColumnStore.live := Some [];
                                OneColumnStore.in_txn := true |} (Fresh.world_t []))
                    _ 0%nat (SqliteError OneColumnStore.BindError) eq_refl));
      reflexivity.
  - reflexivity.
Defined.

Lemma nothing_found_witness :
  let w := Fresh.world_t [] in
  let filter := [(str "a", VStr (str "absent"))] in
  prepare (db w) (buildSelectQuery (str "t") filter) = None
  /\ findOne (str "t") filter w = (inl None, w)
  /\ find (str "t") filter w = (inl [], w).
Proof.
  assert (H : prepare (db (Fresh.world_t []))
                (buildSelectQuery (str "t") [(str "a", VStr (str "absent"))]) = None)
    by reflexivity.
  pose proof (@nothing_found _ _ _ OneColumnStore.driver (str "t")
                [(str "a", VStr (str "absent"))] (Fresh.world_t []) H) as [H1 H2].
  split; [exact H | split; [apply H1 | apply H2]]; reflexivity.
Defined.

(* ----------------------------------------------------------------- *)
(** ** How many parameters [update] binds *)

Lemma in_keys_set_prop (o : object) (k k' : jsstring) (v : value) :
  In k (keys (set_prop o k' v)) <-> k = k' \/ In k (keys o).
Proof.
  unfold set_prop. destruct (has_key k' o) eqn:H.
  - rewrite keys_replace_prop. apply has_key_true in H.
    split; [tauto | intros [->|?]; assumption].
  - destruct (array_index k'); [apply in_keys_insert_index|].
    rewrite keys_app, in_app_iff. cbn. intuition congruence.
Qed.

Lemma in_keys_fold_put (l : list (jsstring * value)) (res : object) (k : jsstring) :
  In k (keys (fold_left put_entry l res)) <-> In k (keys res) \/ In k (map fst l).
Proof.
  revert res. induction l as [|e l IH]; intros res; cbn [fold_left map].
  - cbn. tauto.
  - rewrite IH. unfold put_entry. rewrite in_keys_set_prop. cbn. intuition congruence.
Qed.

Lemma length_replace_prop (k : jsstring) (v : value) (o : object) :
  List.length (replace_prop k v o) = List.length o.
Proof.
  induction o as [|[k' v'] o IH]; [reflexivity|]. cbn.
  destruct (jseqb k k'); cbn; [reflexivity | now rewrite IH].
Qed.

Lemma length_insert_index (i : N) (k : jsstring) (v : value) (o : object) :
  List.length (insert_index i k v o) = S (List.length o).
Proof.
  induction o as [|[k' v'] o IH]; [reflexivity|]. cbn.
  destruct (array_index k') as [j|]; [destruct (j <? i)%N|]; cbn;
    [now rewrite IH | reflexivity | reflexivity].
Qed.

Lemma length_set_prop (o : object) (k : jsstring) (v : value) :
  List.length (set_prop o k v)
  = if has_key k o then List.length o else S (List.length o).
Proof.
  unfold set_prop. destruct (has_key k o); [apply length_replace_prop|].
  destruct (array_index k); [apply length_insert_index|].
  rewrite length_app. cbn. lia.
Qed.

Lemma length_fold_put (l : list (jsstring * value)) (res : object) :
  (List.length (fold_left put_entry l res) <= List.length res + List.length l)%nat.
Proof.
  revert res. induction l as [|e l IH]; intros res; cbn [fold_left]; [cbn; lia|].
  specialize (IH (put_entry res e)).
  change (put_entry res e) with (set_prop res (fst e) (snd e)) in *.
  rewrite length_set_prop in IH. cbn [List.length].
  destruct (has_key (fst e) res); lia.
Qed.

Lemma length_fold_put_shared (l : list (jsstring * value)) (res : object) (k : jsstring) :
  In k (keys res) -> In k (map fst l) ->
  (List.length (fold_left put_entry l res) < List.length res + List.length l)%nat.
Proof.
  revert res. induction l as [|e l IH]; intros res Hres Hl; [destruct Hl|].
  cbn [fold_left List.length].
  destruct (has_key (fst e) res) eqn:Hk.
  - pose proof (length_fold_put l (put_entry res e)) as H.
    change (put_entry res e) with (set_prop res (fst e) (snd e)) in *.
    rewrite length_set_prop, Hk in H. lia.
  - destruct Hl as [E|Hl].
    + exfalso. apply has_key_true in Hres. congruence.
    + assert (H : In k (keys (put_entry res e)))
        by (unfold put_entry; apply in_keys_set_prop; now right).
      specialize (IH _ H Hl).
      change (put_entry res e) with (set_prop res (fst e) (snd e)) in *.
      rewrite length_set_prop, Hk in IH. lia.
Qed.

Lemma assign_flat (a b : object) : flat a -> flat b -> flat (assign a b).
Proof.
  unfold flat, assign. rewrite !Forall_forall. intros Ha Hb e He.
  apply in_fold_put in He as [He|He]; auto.
Qed.

(** X9: when a flattened key of the values is also a flattened key of the
    filter, [update] binds fewer parameters than its statement has
    placeholders. *)
Theorem update_shared_key_binds_too_few (valueParams whereParams : object)
      (k : jsstring) :
  In k (keys (flatten valueParams)) ->
  In k (keys (flatten whereParams)) ->
  (List.length (update_values valueParams whereParams)
   < List.length (keys (flatten valueParams))
     + List.length (keys (flatten whereParams)))%nat.
Proof.
  intros Hv Hf. unfold update_values. cbv zeta.
  rewrite flatten_flat_id.
  - unfold quoteAll, values, keys. rewrite !length_map.
    unfold assign. apply length_fold_put_shared with (k := k); assumption.
  - unfold assign. apply fold_put_wf, flatten_wf.
  - apply assign_flat; apply flatten_flat.
Qed.

Lemma update_shared_key_binds_too_few_witness :
  let v := [(str "n", VNum 1); (str "m", VObj [(str "x", VNum 2)])] in
  let f := [(str "m_x", VNum 3)] in
  In (str "m_x") (keys (flatten v)) /\ In (str "m_x") (keys (flatten f))
  /\ (List.length (update_values v f)
      < List.length (keys (flatten v)) + List.length (keys (flatten f)))%nat.
Proof.
  assert (Hv : In (str "m_x")
                 (keys (flatten [(str "n", VNum 1); (str "m", VObj [(str "x", VNum 2)])])))
    by (right; left; reflexivity).
  assert (Hf : In (str "m_x") (keys (flatten [(str "m_x", VNum 3)])))
    by (left; reflexivity).
  split; [exact Hv | split; [exact Hf |]].
  exact (update_shared_key_binds_too_few _ _ _ Hv Hf).
Defined.

(** X10: when the flattened values followed by the flattened filter still
    form an object (no key in both, no array index after a name),
    [update] binds the quoted values and then the quoted filter values,
    one parameter for each placeholder of its statement. *)
Theorem update_binds_in_order (valueParams whereParams : object) :
  wf_object (flatten valueParams ++ flatten whereParams) ->
  update_values valueParams whereParams
  = quoteAll (values (flatten valueParams)) false
      ++ quoteAll (values (flatten whereParams)) false
  /\ List.length (update_values valueParams whereParams)
     = (List.length (keys (flatten valueParams))
        + List.length (keys (flatten whereParams)))%nat.
Proof.
  intros H. rewrite (update_values_disjoint _ _ H).
  unfold quoteAll, values, keys. rewrite map_app. split; [reflexivity|].
  now rewrite length_app, !length_map.
Qed.

Lemma update_binds_in_order_witness :
  let v := [(str "a", VBool true); (str "b", VStr (str "x y"))] in
  let f := [(str "id", VNum 7)] in
  wf_object (flatten v ++ flatten f)
  /\ update_values v f = [VNum 1; VStr (str "x%20y"); VNum 7].
Proof.
  assert (H : wf_object (flatten [(str "a", VBool true); (str "b", VStr (str "x y"))]
                         ++ flatten [(str "id", VNum 7)])) by reflexivity.
  split; [exact H|].
  exact (proj1 (update_binds_in_order _ _ H)).
Defined.

(* ----------------------------------------------------------------- *)
(** ** Batches *)

Section Batches.

Context {conn info err : Type} {D : Driver conn info err}.

(** X11: unless the global scope binds [query], [atomicQuery] on a
    non-empty batch opens the transaction and then throws a
    [ReferenceError]: no statement of the batch is run and the transaction
    is not closed. *)
Theorem atomicQuery_needs_global_query (q : jsstring) (qs : list jsstring)
      (w w0 : world conn) (i : info) :
  existsb (jseqb (str "query")) (globals w) = false ->
  db_exec BEGIN_EXCLUSIVE w = (inl i, w0) ->
  atomicQuery (q :: qs) w = (inr (ReferenceError (str "query")), w0)
  /\ globals w0 = globals w /\ arrays w0 = arrays w.
Proof.
  intros Hg H0. split; [now apply atomicQuery_unbound with (i := i)|].
  now apply db_exec_globals in H0.
Qed.

(** X12: when [query] is bound and the statements before it ran, a
    statement that throws ends [atomicQuery] with its error, in the state
    that statement left: the later statements are not run, and neither a
    commit nor a rollback follows. *)
Theorem atomicQuery_stops_at_failure (qs1 qs2 : list jsstring) (q : jsstring)
      (w w0 w1 w2 : world conn) (i : info) (e : err) :
  existsb (jseqb (str "query")) (globals w1) = true ->
  db_exec BEGIN_EXCLUSIVE w = (inl i, w0) ->
  for_of qs1 (fun q => assign_query ;;; db_exec q ;;; ret tt) w0 = (inl tt, w1) ->
  db_exec q w1 = (inr (SqliteError e), w2) ->
  atomicQuery (qs1 ++ q :: qs2) w = (inr (SqliteError e), w2).
Proof.
  intros Hg H0 H1 H2. apply atomicQuery_throws with (w0 := w0) (w1 := w1) (i := i);
    try assumption.
  unfold bind, assign_query. now rewrite Hg, H2.
Qed.

(** X13: when the statement for the first table is refused, [initTables]
    throws with the transaction open, and the column arrays of that table
    have already been rewritten: the caller's descriptor has changed
    although no table was created. *)
Theorem initTables_failure_keeps_rewrite (t : table) (s : schema)
      (w w0 w1 w2 : world conn) (i : info) (sql : jsstring) (e : exn err) :
  db_exec BEGIN_EXCLUSIVE w = (inl i, w0) ->
  table_sql (err := err) t w0 = (inl sql, w1) ->
  db_exec sql w1 = (inr e, w2) ->
  initTables (t :: s) w = (inr e, w2)
  /\ arrays w2 = quote_at (columns t) (arrays w).
Proof.
  intros H0 H1 H2. split.
  - unfold initTables. unfold bind at 1. rewrite H0.
    unfold bind at 1. cbn [for_of]. unfold bind at 1. unfold bind at 1.
    rewrite H1. unfold bind at 1. now rewrite H2.
  - apply db_exec_arrays in H0, H2. apply table_sql_arrays in H1.
    rewrite H2, H1. cbn [arrays with_arrays]. now rewrite H0.
Qed.

(** X14: for a table whose column arrays are distinct and in the store,
    the statement [initTables] builds is [CREATE TABLE IF NOT EXISTS
    "name" (...)] with the columns separated by [, ], each column being
    its name in double quotes followed by its other entries, separated by
    blanks. *)
Theorem table_sql_text (t : table) (cs : list column) (w : world conn) :
  NoDup (columns t) ->
  Forall2 (fun l c => nth_error (arrays w) l = Some c) (columns t) cs ->
  table_sql (err := err) t w
  = (inl (str "CREATE TABLE IF NOT EXISTS " ++ dquote ++ tableName t ++ dquote
            ++ str " ("
            ++ join (str ", ")
                 (map (fun c => join (str " ")
                                  ((dquote ++ col_name c ++ dquote) :: col_rest c)) cs)
            ++ str ");"),
     with_arrays (quote_at (columns t) (arrays w)) w).
Proof.
  intros Hnd Hcs. unfold table_sql, bind.
  now rewrite map_m_quote_column_run with (cs := cs).
Qed.

End Batches.

Lemma atomicQuery_needs_global_query_witness :
  let w := Fresh.world_t [] in
  existsb (jseqb (str "query")) (globals w) = false
  /\ exists w0 : world OneColumnStore.conn,
       atomicQuery [OneColumnStore.INSERT_1; OneColumnStore.INSERT_2] w
       = (inr (ReferenceError (str "query")), w0)
       /\ OneColumnStore.live (db w0) = Some []
       /\ OneColumnStore.in_txn (db w0) = true.
Proof.
  split; [reflexivity|]. eexists. split.
  - eapply (@atomicQuery_needs_global_query _ _ _ OneColumnStore.driver
              OneColumnStore.INSERT_1 [OneColumnStore.INSERT_2] (Fresh.world_t []));
      reflexivity.
  - split; reflexivity.
Defined.

Lemma atomicQuery_stops_at_failure_witness :
  let w := Fresh.world_t [str "query"] in
  exists w2 : world OneColumnStore.conn,
    atomicQuery ([OneColumnStore.INSERT_1] ++ Batch.BAD :: [OneColumnStore.INSERT_2]) w
    = (inr (SqliteError OneColumnStore.SyntaxError), w2)
    /\ OneColumnStore.live (db w2) = Some [VNum 1]
    /\ OneColumnStore.durable (db w2) = Some []
    /\ OneColumnStore.in_txn (db w2) = true.
Proof.
  eexists. split.
  - eapply (@atomicQuery_stops_at_failure _ _ _ OneColumnStore.driver
              [OneColumnStore.INSERT_1] [OneColumnStore.INSERT_2] Batch.BAD
              (Fresh.world_t [str "query"])); cycle 1;
      [reflexivity | reflexivity | reflexivity | reflexivity].
  - repeat split.
Defined.

Lemma initTables_failure_keeps_rewrite_witness :
  let w := Fresh.world_t [] in
  exists w2 : world OneColumnStore.conn,
    initTables Fresh.schema_t w = (inr (SqliteError OneColumnStore.SyntaxError), w2)
    /\ arrays w2
       = [{| col_name := dquote ++ dquote ++ str "a" ++ dquote ++ dquote;
             col_rest := [] |}]
    /\ OneColumnStore.in_txn (db w2) = true.
Proof.
  eexists. split.
  - eapply (@initTables_failure_keeps_rewrite _ _ _ OneColumnStore.driver
              {| tableName := str "t"; columns := [0%nat] |} []
              (Fresh.world_t [])); reflexivity.
  - split; reflexivity.
Defined.

Lemma table_sql_text_witness :
  let t := {| tableName := str "questions"; columns := [1%nat; 0%nat] |} in
  let a := [{| col_name := str "questionText"; col_rest := [str "TEXT"] |};
            {| col_name := str "author"; col_rest := [str "NUMERIC"] |}] in
  let w := OneColumnStore.opened [] a in
  NoDup (columns t)
  /\ fst (table_sql (err := OneColumnStore.err) t w)
     = inl (str "CREATE TABLE IF NOT EXISTS " ++ dquote ++ str "questions" ++ dquote
              ++ str " (" ++ dquote ++ str "author" ++ dquote ++ str " NUMERIC, "
              ++ dquote ++ str "questionText" ++ dquote ++ str " TEXT);").
Proof.
  assert (Hnd : NoDup [1%nat; 0%nat]).
  { constructor; [intros [H|[]]; discriminate|].
    constructor; [intros []|constructor]. }
  split; [exact Hnd|].
  rewrite table_sql_text
    with (cs := [{| col_name := str "author"; col_rest := [str "NUMERIC"] |};
                 {| col_name := str "questionText"; col_rest := [str "TEXT"] |}]).
  - reflexivity.
  - exact Hnd.
  - repeat constructor.
Defined.

(* ----------------------------------------------------------------- *)
(** ** A column array is quoted once for each place it is listed *)

Lemma nth_error_quote_at_count (ls : list nat) (a : list column) (l : nat) :
  nth_error (quote_at ls a) l
  = option_map (Nat.iter (count_occ Nat.eq_dec ls l) quoted_column) (nth_error a l).
Proof.
  revert a. induction ls as [|l0 ls IH]; intros a.
  - cbn. now destruct (nth_error a l).
  - cbn [quote_at fold_left count_occ]. fold (quote_at ls). rewrite IH.
    destruct (Nat.eq_dec l0 l) as [->|Hne].
    + destruct (nth_error a l) as [c|] eqn:E.
      * rewrite nth_error_store_at_same
          by (apply nth_error_Some; congruence).
        cbn [option_map]. now rewrite Nat.iter_succ_r.
      * now rewrite E.
    + destruct (nth_error a l0); [|reflexivity].
      now rewrite nth_error_store_at_other.
Qed.

Lemma iter_quoted_column (n : nat) (c : column) :
  Nat.iter n quoted_column c
  = {| col_name := Nat.iter n (fun k => dquote ++ k ++ dquote) (col_name c);
       col_rest := col_rest c |}.
Proof.
  induction n as [|n IH]; [now destruct c|].
  rewrite !Nat.iter_succ, IH. reflexivity.
Qed.

Section QuotedPerOccurrence.

Context {conn info err : Type} {D : Driver conn info err}.

(** X15: when [initTables] returns, a column array that the descriptor
    lists [n] times has had its name wrapped in double quotes [n] times;
    an array it does not list is unchanged. *)
Theorem initTables_quotes_per_occurrence (s : schema) (w w' : world conn)
      (l : nat) (c : column) :
  initTables s w = (inl tt, w') ->
  nth_error (arrays w) l = Some c ->
  nth_error (arrays w') l
  = Some {| col_name :=
              Nat.iter (count_occ Nat.eq_dec (refs s) l)
                (fun k => dquote ++ k ++ dquote) (col_name c);
            col_rest := col_rest c |}.
Proof.
  intros Hrun Hc. rewrite (initTables_arrays _ _ Hrun), nth_error_quote_at_count, Hc.
  cbn [option_map]. f_equal. apply iter_quoted_column.
Qed.

End QuotedPerOccurrence.

Lemma initTables_quotes_per_occurrence_witness :
  let w := Recorder.opened Recorder.shared_columns in
  exists w' : world Recorder.conn,
    initTables Recorder.shared_schema w = (inl tt, w')
    /\ nth_error (arrays w') 0
       = Some {| col_name := dquote ++ (dquote ++ str "id" ++ dquote) ++ dquote;
                 col_rest := [str "INTEGER"] |}.
Proof.
  eexists. split; [reflexivity|].
  exact (@initTables_quotes_per_occurrence _ _ _ Recorder.driver
           Recorder.shared_schema (Recorder.opened Recorder.shared_columns) _
           0%nat _ eq_refl eq_refl).
Defined.

(* ----------------------------------------------------------------- *)
(** ** The keys of a flattened mapping *)

Lemma ordered_keys_NoDup (ks : list jsstring) : ordered_keys ks = true -> NoDup ks.
Proof.
  induction ks as [|k ks IH]; [constructor|]. cbn [ordered_keys].
  intros H. apply andb_true_iff in H as [Hk Hks]. constructor; [|now apply IH].
  intros Hin. rewrite forallb_forall in Hk.
  exact (precedes_neq (Hk k Hin) eq_refl).
Qed.

Lemma in_keys_flattenObj (obj : object) (parent : option jsstring) (k : jsstring) :
  In k (keys (flattenObj obj parent []))
  <-> exists pv, In pv (paths obj) /\ k = name_under parent (fst pv).
Proof.
  rewrite flattenObj_paths, in_keys_fold_put. unfold named. rewrite map_map.
  cbn [keys map fst]. rewrite in_map_iff. split.
  - intros [[]|(pv & <- & H)]. now exists pv.
  - intros (pv & H & ->). right. now exists pv.
Qed.

(** X16: for a mapping no leaf of which is named [__proto__], the keys
    of the flattened mapping are exactly the names of the leaves of the
    input, each of them once, so there are at most as many as there are
    leaves; and the flattened mapping is empty exactly when the input has
    no leaf. *)
Theorem flatten_keys (obj : object) :
  proto_free obj ->
  (forall k, In k (keys (flatten obj))
             <-> exists pv, In pv (paths obj) /\ k = name_under None (fst pv))
  /\ NoDup (keys (flatten obj))
  /\ (List.length (flatten obj) <= List.length (paths obj))%nat
  /\ (flatten obj = [] <-> paths obj = []).
Proof.
  intros _.
  assert (Hk : forall k, In k (keys (flatten obj))
             <-> exists pv, In pv (paths obj) /\ k = name_under None (fst pv))
    by (intros k; apply in_keys_flattenObj).
  split; [exact Hk | split; [|split]].
  - apply ordered_keys_NoDup, flatten_wf.
  - rewrite flatten_paths. unfold fromEntries.
    pose proof (length_fold_put (named None (paths obj)) []) as H.
    unfold named in H. rewrite length_map in H. exact H.
  - split; intros H.
    + destruct (paths obj) as [|pv ps] eqn:E; [reflexivity|]. exfalso.
      assert (Hin : In (name_under None (fst pv)) (keys (flatten obj)))
        by (apply Hk; exists pv; split;
            [first [now left | rewrite E; now left] | reflexivity]).
      now rewrite H in Hin.
    + rewrite flatten_paths, H. reflexivity.
Qed.

Lemma flatten_keys_witness :
  let obj := [(str "meta", VObj [(str "age", VNum 5); (str "tags", VObj [])]);
              (str "meta_age", VNull)] in
  proto_free obj
  /\ keys (flatten obj) = [str "meta_age"]
  /\ NoDup (keys (flatten obj))
  /\ (List.length (flatten obj) <= List.length (paths obj))%nat.
Proof.
  assert (H : proto_free [(str "meta", VObj [(str "age", VNum 5); (str "tags", VObj [])]);
                          (str "meta_age", VNull)])
    by (repeat (constructor; [discriminate|]); constructor).
  split; [exact H | split; [reflexivity |]].
  exact (conj (proj1 (proj2 (flatten_keys H)))
              (proj1 (proj2 (proj2 (flatten_keys H))))).
Defined.

(** X17: below a non-empty parent name every key [flattenObj] produces
    starts with that name and an underscore; so every key that comes
    from inside a nested object starts with the key that holds the
    object. *)
Theorem flattenObj_prefix (obj : object) (p k : jsstring) :
  p <> [] ->
  (In k (keys (flattenObj obj (Some p) [])) ->
   exists rest, k = p ++ str "_" ++ rest)
  /\ (In k (keys (flatten [(p, VObj obj)])) ->
      exists rest, k = p ++ str "_" ++ rest).
Proof.
  intros Hp.
  assert (H : In k (keys (flattenObj obj (Some p) [])) ->
              exists rest, k = p ++ str "_" ++ rest).
  { intros Hin. apply in_keys_flattenObj in Hin as (pv & Hpv & ->).
    destruct (paths_head _ _ Hpv) as (key & rest & E & _).
    rewrite E, name_under_join by exact Hp.
    exists (join (str "_") (key :: rest)). reflexivity. }
  split; [exact H|]. intros Hin. apply H.
  unfold flatten in Hin. rewrite flattenObj_cons in Hin. cbv zeta in Hin.
  exact Hin.
Qed.

Lemma flattenObj_prefix_witness :
  let obj := [(str "age", VNum 5); (str "pet", VObj [(str "name", VStr (str "Rex"))])] in
  str "meta" <> []
  /\ In (str "meta_pet_name") (keys (flatten [(str "meta", VObj obj)]))
  /\ exists rest, str "meta_pet_name" = str "meta" ++ str "_" ++ rest.
Proof.
  assert (Hp : str "meta" <> []) by discriminate.
  assert (Hin : In (str "meta_pet_name")
                  (keys (flatten [(str "meta",
                     VObj [(str "age", VNum 5);
                           (str "pet", VObj [(str "name", VStr (str "Rex"))])])])))
    by (right; left; reflexivity).
  split; [exact Hp | split; [exact Hin |]].
  exact (proj2 (flattenObj_prefix _ _ Hp) Hin).
Defined.

Section NoLeaf.

Context {conn info err : Type} {D : Driver conn info err}.

(** X18: a mapping without a leaf (it is empty, or holds only empty
    objects, however nested) counts as the empty mapping: as a filter it
    selects every row, as a row it gives an insert statement without
    columns, and nothing is bound. *)
Theorem no_leaf_is_empty (t : jsstring) (obj : object) :
  paths obj = [] ->
  flatten obj = []
  /\ buildSelectQuery t obj = str "SELECT * FROM " ++ dquote ++ t ++ dquote ++ str ";"
  /\ buildInsertQuery t obj
     = str "INSERT INTO " ++ dquote ++ t ++ dquote ++ str " () VALUES ();"
  /\ find t obj = find t []
  /\ findOne t obj = findOne t [].
Proof.
  intros H.
  assert (E : flatten obj = []) by (rewrite flatten_paths, H; reflexivity).
  assert (Hs : buildSelectQuery t obj = buildSelectQuery t [])
    by (unfold buildSelectQuery, buildParamString; now rewrite E).
  repeat split.
  - exact E.
  - now rewrite Hs.
  - unfold buildInsertQuery. now rewrite E.
  - unfold find. cbv zeta. now rewrite Hs, E.
  - unfold findOne. cbv zeta. now rewrite Hs, E.
Qed.

End NoLeaf.

Lemma no_leaf_is_empty_witness :
  let obj := [(str "a", VObj []); (str "b", VObj [(str "c", VObj [])])] in
  paths obj = []
  /\ buildSelectQuery (str "t") obj
     = str "SELECT * FROM " ++ dquote ++ str "t" ++ dquote ++ str ";".
Proof.
  assert (H : paths [(str "a", VObj []); (str "b", VObj [(str "c", VObj [])])] = [])
    by reflexivity.
  split; [exact H|].
  exact (proj1 (proj2 (@no_leaf_is_empty _ _ _ OneColumnStore.driver (str "t") _ H))).
Defined.

(* ----------------------------------------------------------------- *)
(** ** Decoding what was not encoded *)

Lemma unescape_plain (s : jsstring) : ~ In percent s -> unescape s = s.
Proof.
  unfold unescape. induction s as [|c s IH]; intros H; [reflexivity|].
  cbn [unescape_from].
  destruct (N.eqb_spec c percent) as [->|_]; [exfalso; apply H; now left|].
  f_equal. apply IH. intros Hin. apply H. now right.
Qed.

(** X19: a row none of whose strings holds a percent sign is returned by
    the decode helper as it is. *)
Theorem dequoteAll_plain_row (row : object) :
  wf_object row ->
  (forall k s, In (k, VStr s) row -> ~ In percent s) ->
  dequoteAll (Some row) = Some row.
Proof.
  intros Hwf Hplain. cbn [dequoteAll]. f_equal.
  rewrite dequoteRow_map by exact Hwf.
  rewrite <- (map_id row) at 2. apply map_ext_in.
  intros [k v] Hin. rewrite dequote_entry_value.
  destruct v as [| | | |s|]; try reflexivity.
  now rewrite unescape_plain by exact (Hplain k s Hin).
Qed.

Lemma dequoteAll_plain_row_witness :
  let row := [(str "author", VNum 42); (str "questionText", VStr (str "Why?"))] in
  wf_object row /\ dequoteAll (Some row) = Some row.
Proof.
  assert (Hwf : wf_object [(str "author", VNum 42);
                           (str "questionText", VStr (str "Why?"))]) by reflexivity.
  split; [exact Hwf|].
  apply (dequoteAll_plain_row Hwf).
  intros k s [E|[E|[]]]; [discriminate|]. injection E as _ <-.
  intros Hin. vm_compute in Hin. intuition discriminate.
Defined.

(* ----------------------------------------------------------------- *)
(** ** Arrays are spread over numbered keys *)

Section Arrays.
Local Open Scope N_scope.

Lemma uint_units_inj (d d' : Decimal.uint) : uint_units d = uint_units d' -> d = d'.
Proof.
  revert d'. induction d; intros d'; destruct d'; cbn [uint_units];
    intros H; try discriminate; try reflexivity;
    injection H as H; f_equal; now apply IHd.
Qed.

Lemma to_decimal_inj (i j : N) : to_decimal i = to_decimal j -> i = j.
Proof.
  unfold to_decimal. intros H. apply uint_units_inj in H.
  now apply DecimalN.Unsigned.to_uint_inj.
Qed.

Lemma digits_val_underscore (acc : N) (a b : jsstring) :
  digits_val acc (a ++ 95 :: b) = None.
Proof.
  revert acc. induction a as [|c a IH]; intros acc; [reflexivity|].
  cbn [app digits_val]. destruct ((48 <=? c) && (c <=? 57)); [apply IH | reflexivity].
Qed.

Lemma array_index_underscore (a b : jsstring) : array_index (a ++ 95 :: b) = None.
Proof.
  unfold array_index. rewrite digits_val_underscore. now destruct (a ++ 95 :: b).
Qed.

Lemma in_keys_array_entries (vs : list value) (i : N) (k : jsstring) :
  In k (keys (array_entries i vs)) -> exists j, i <= j /\ k = to_decimal j.
Proof.
  revert i. induction vs as [|v vs IH]; intros i; [intros []|].
  cbn. intros [<-|H]; [exists i; split; [lia | reflexivity]|].
  apply IH in H as (j & Hj & ->). exists j. split; [lia | reflexivity].
Qed.

(** Names that are no array indices and differ from one another are in
    enumeration order however they are listed. *)
Lemma ordered_keys_names (ks : list jsstring) :
  Forall (fun k => array_index k = None) ks -> NoDup ks -> ordered_keys ks = true.
Proof.
  intros Hn Hd. induction Hd as [|k ks Hk Hd IH]; [reflexivity|].
  inversion Hn as [|? ? Hkn Hksn]. subst.
  cbn [ordered_keys]. apply andb_true_iff. split; [|now apply IH].
  apply forallb_forall. intros x Hx. unfold precedes. rewrite Hkn.
  rewrite Forall_forall in Hksn. rewrite (Hksn x Hx).
  apply andb_true_iff. split; [|reflexivity].
  apply negb_true_iff, jseqb_neq. intros ->. contradiction.
Qed.

Lemma paths_array_entries (vs : list value) (i : N) :
  Forall (fun v => is_object v = false) vs ->
  paths (array_entries i vs)
  = map (fun e => ([fst e], snd e)) (array_entries i vs).
Proof.
  intros H. revert i. induction H as [|v vs Hv _ IH]; intros i; [reflexivity|].
  cbn [array_entries map]. unfold paths. cbn [flat_map].
  fold (paths (array_entries (N.succ i) vs)). rewrite IH.
  destruct v; try discriminate; reflexivity.
Qed.

End Arrays.

(** X20: a field that holds an array of scalars is flattened to one key
    for each element, the field's key followed by an underscore and the
    element's index, in the order of the array. *)
Theorem flatten_array_field (p : jsstring) (vs : list value) :
  p <> [] ->
  Forall (fun v => is_object v = false) vs ->
  flatten [(p, array vs)]
  = map (fun e => (p ++ str "_" ++ fst e, snd e)) (array_entries 0 vs).
Proof.
  intros Hp Hvs. unfold flatten, array. rewrite flattenObj_cons. cbv zeta.
  cbn [prop_name flattenObj fold_left].
  change (fold_left _ (array_entries 0 vs) [])
    with (flattenObj (array_entries 0 vs) (Some p) []).
  rewrite flattenObj_paths, paths_array_entries by exact Hvs.
  unfold named. rewrite map_map. cbn [fst snd name_under].
  assert (E : forall e : jsstring * value,
            prop_name (Some p) (fst e) = p ++ str "_" ++ fst e).
  { intros e. destruct p; [congruence | reflexivity]. }
  rewrite (map_ext _ (fun e => (p ++ str "_" ++ fst e, snd e)))
    by (intros e; now rewrite E).
  apply (fold_put_app _ []). cbn [app]. unfold wf_object, keys.
  rewrite map_map. cbn [fst].
  apply ordered_keys_names.
  - apply Forall_map, Forall_forall. intros e _.
    exact (array_index_underscore p (fst e)).
  - assert (Hk : NoDup (keys (array_entries 0 vs))).
    { generalize 0%N. induction vs as [|v vs IH]; intros i; [constructor|].
      inversion Hvs. subst. cbn. constructor; [|now apply IH].
      intros Hin. apply in_keys_array_entries in Hin as (j & Hj & E').
      apply to_decimal_inj in E'. lia. }
    unfold keys in Hk. rewrite <- (map_map fst (fun k => p ++ str "_" ++ k)).
    apply Finite.Injective_map_NoDup; [|exact Hk].
    intros a b Hab. apply app_inv_head in Hab.
    now apply (app_inv_head (str "_")) in Hab.
Qed.

Lemma flatten_array_field_witness :
  let vs := [VStr (str "x"); VNull; VNum 3] in
  str "tags" <> []
  /\ Forall (fun v => is_object v = false) vs
  /\ flatten [(str "tags", array vs)]
     = [(str "tags_0", VStr (str "x")); (str "tags_1", VNull); (str "tags_2", VNum 3)].
Proof.
  assert (Hp : str "tags" <> []) by discriminate.
  assert (Hvs : Forall (fun v => is_object v = false)
                  [VStr (str "x"); VNull; VNum 3])
    by (repeat (constructor; [reflexivity|]); constructor).
  split; [exact Hp | split; [exact Hvs |]].
  exact (flatten_array_field Hp Hvs).
Defined.

(* ----------------------------------------------------------------- *)
(** ** Rows written and read back *)

Lemma dequote_entry_quote (k : jsstring) (v : value) :
  is_object v = false ->
  (forall s, v = VStr s -> code_units s) ->
  dequote_entry (k, quote v false) = (k, stored v).
Proof.
  intros Hv Hs. rewrite dequote_entry_value. f_equal.
  destruct v as [|[|]|n| |s|o]; try reflexivity.
  cbn [quote]. rewrite quote_string_literal.
  now rewrite unescape_escape by now apply Hs.
Qed.

(** X21: for a flat row of scalars, the values [insert] binds, put back
    under their keys and decoded as [find] decodes a row, give the row
    again with its keys in the same order: strings and numbers as they
    were, [true] and [false] as 1 and 0, [null] as the string [null]. *)
Theorem decode_of_bound_row (row : object) :
  wf_object row ->
  flat row ->
  (forall k s, In (k, VStr s) row -> code_units s) ->
  dequoteRow (combine (keys (flatten row)) (quoteAll (values (flatten row)) false))
  = map (fun e => (fst e, stored (snd e))) row.
Proof.
  intros Hwf Hflat Hs. rewrite flatten_flat_id by assumption.
  assert (E : combine (keys row) (quoteAll (values row) false)
              = map (fun e => (fst e, quote (snd e) false)) row).
  { clear. induction row as [|[k v] row IH]; [reflexivity|].
    cbn. now rewrite <- IH. }
  rewrite E. rewrite dequoteRow_map.
  - rewrite map_map. apply map_ext_in. intros [k v] Hin. cbn [fst snd].
    apply dequote_entry_quote.
    + unfold flat in Hflat. rewrite Forall_forall in Hflat. exact (Hflat _ Hin).
    + intros s ->. exact (Hs k s Hin).
  - unfold wf_object, keys. rewrite map_map. exact Hwf.
Qed.

Lemma decode_of_bound_row_witness :
  let row := [(str "author", VNum 42); (str "text", VStr (str "50% off?"));
              (str "asked", VBool false)] in
  wf_object row /\ flat row
  /\ dequoteRow (combine (keys (flatten row)) (quoteAll (values (flatten row)) false))
     = [(str "author", VNum 42); (str "text", VStr (str "50% off?"));
        (str "asked", VNum 0)].
Proof.
  assert (Hwf : wf_object [(str "author", VNum 42); (str "text", VStr (str "50% off?"));
                           (str "asked", VBool false)]) by reflexivity.
  assert (Hflat : flat [(str "author", VNum 42); (str "text", VStr (str "50% off?"));
                        (str "asked", VBool false)])
    by (repeat (constructor; [reflexivity|]); constructor).
  split; [exact Hwf | split; [exact Hflat |]].
  apply (decode_of_bound_row Hwf Hflat).
  intros k s [E|[E|[E|[]]]]; try discriminate.
  injection E as _ <-. unfold code_units. code_units_tac.
Defined.
